(** * LorentzSim: the integrator and the projection pipeline of
    [components/SimulationCanvas.tsx], embedded in Rocq.

    This is the real-number functional model of the code: JavaScript numbers
    are modelled as real numbers ([R]), every arithmetic operation of the
    source is read as the exact operation, [Math.abs] as [Rabs], [Math.max]
    as [Rmax], [Math.cos] and [Math.sin] as [cos] and [sin].  Rounding,
    infinities and NaN are outside this model.

    The React component keeps its simulation state in a mutable ref
    ([stateRef.current]); the functions below pass that state explicitly and
    return the state the ref holds when the source function returns.

    The second half of the development covers the camera controls and
    [draw] of the same component, with the calls on the 2D context as a
    list of commands, and the edits of [components/ControlPanel.tsx]. *)

From Stdlib Require Import Reals Lra Lia List Bool Arith.
From Stdlib Require String.
Import String.StringSyntax.
Import ListNotations.

Local Open Scope R_scope.
Delimit Scope string_scope with string.
Bind Scope string_scope with String.string.

(** ** Numbers: the comparisons of the source, as booleans *)

Definition gtb (a b : R) : bool := if Rgt_dec a b then true else false.
Definition ltb (a b : R) : bool := if Rlt_dec a b then true else false.
(** [a === b] and [a !== b] on numbers. *)
Definition eqb (a b : R) : bool := if Req_dec_T a b then true else false.
Definition neqb (a b : R) : bool := negb (eqb a b).

(** ** types.ts *)

Module Vector3.
Record t : Type := mk { x : R; y : R; z : R }.
End Vector3.
Import Vector3(x, y, z).
Abbreviation Vector3 := Vector3.t.

Module SimulationParams.
Record t : Type := mk
    { mass : R; charge : R; velocity : Vector3; bField : Vector3 }.
End SimulationParams.
Import SimulationParams(mass, charge, bField).
Abbreviation SimulationParams := SimulationParams.t.

Module SimulationState.
Record t : Type := mk
    { position : Vector3; velocity : Vector3;
      history : list Vector3; time : R }.
End SimulationState.
Import SimulationState(position, velocity, history, time).
Abbreviation SimulationState := SimulationState.t.

Module CameraState.
Record t : Type := mk { pitch : R; yaw : R; zoom : R }.
End CameraState.
Import CameraState(pitch, yaw, zoom).
Abbreviation CameraState := CameraState.t.

(** ** Constants of SimulationCanvas.tsx *)

Definition AXIS_DRAW_EXTENT : R := 100000.
Definition BOUNDS_LIMIT : R := 320.
Definition TRAIL_LENGTH : nat := 3000.
Definition DT : R := 0.05.

(** ** The evaluation log

    [stepPhysics] calls its local closure [accel] several times.  To speak
    about these calls the embedding runs the body in a writer monad whose
    log is the list of arguments [accel] was called with, in call order. *)

Definition Logged (A : Type) : Type := (A * list Vector3)%type.

Definition ret {A : Type} (a : A) : Logged A := (a, []).

Definition bind {A B : Type} (m : Logged A) (k : A -> Logged B) : Logged B :=
  let (a, l1) := m in
  let (b, l2) := k a in
  (b, l1 ++ l2).

(** One call of a function on vectors, recorded in the log. *)
Definition call (f : Vector3 -> Vector3) (vel : Vector3) : Logged Vector3 :=
  (f vel, [vel]).

Notation "a <- m ;; k" := (bind m (fun a => k))
  (at level 61, m at next level, right associativity).

(** ** The integrator *)

(** What [stepPhysics] did: it advanced the state, or it called [onStop()]
    and returned early. *)
Inductive Signal : Type := Advanced | Halted.

(** The closure [accel] of [stepPhysics]: a(v) = (q/m) (v x B). *)
Definition accel (params : SimulationParams) (vel : Vector3) : Vector3 :=
  let qm := charge params / mass params in
  let B := bField params in
  let crossX := y vel * z B - z vel * y B in
  let crossY := z vel * x B - x vel * z B in
  let crossZ := x vel * y B - y vel * x B in
  Vector3.mk (qm * crossX) (qm * crossY) (qm * crossZ).

(** The bounds test that opens [stepPhysics]. *)
Definition outOfBounds (r : Vector3) : bool :=
  gtb (Rabs (x r)) BOUNDS_LIMIT
  || gtb (Rabs (y r)) BOUNDS_LIMIT
  || gtb (Rabs (z r)) BOUNDS_LIMIT.

(** [history.push(newR)] followed by the guarded [history.shift()]. *)
Definition pushTrail (h : list Vector3) (newR : Vector3) : list Vector3 :=
  let h1 := h ++ [newR] in
  if (TRAIL_LENGTH <? length h1)%nat then tl h1 else h1.

Definition stepPhysicsLogged (params : SimulationParams) (st : SimulationState)
  : Logged (Signal * SimulationState) :=
  let r := position st in
  let v := velocity st in
  if outOfBounds r then ret (Halted, st)
  else
    a1 <- call (accel params) v ;;
    let k1v := Vector3.mk (x a1 * DT) (y a1 * DT) (z a1 * DT) in
    let k1r := Vector3.mk (x v * DT) (y v * DT) (z v * DT) in
    let v2 := Vector3.mk (x v + x k1v * 0.5) (y v + y k1v * 0.5)
                         (z v + z k1v * 0.5) in
    a2 <- call (accel params) v2 ;;
    let k2v := Vector3.mk (x a2 * DT) (y a2 * DT) (z a2 * DT) in
    let k2r := Vector3.mk (x v2 * DT) (y v2 * DT) (z v2 * DT) in
    let v3 := Vector3.mk (x v + x k2v * 0.5) (y v + y k2v * 0.5)
                         (z v + z k2v * 0.5) in
    a3 <- call (accel params) v3 ;;
    let k3v := Vector3.mk (x a3 * DT) (y a3 * DT) (z a3 * DT) in
    let k3r := Vector3.mk (x v3 * DT) (y v3 * DT) (z v3 * DT) in
    let v4 := Vector3.mk (x v + x k3v) (y v + y k3v) (z v + z k3v) in
    a4 <- call (accel params) v4 ;;
    let k4v := Vector3.mk (x a4 * DT) (y a4 * DT) (z a4 * DT) in
    let k4r := Vector3.mk (x v4 * DT) (y v4 * DT) (z v4 * DT) in
    let newV := Vector3.mk
      (x v + (x k1v + 2 * x k2v + 2 * x k3v + x k4v) / 6)
      (y v + (y k1v + 2 * y k2v + 2 * y k3v + y k4v) / 6)
      (z v + (z k1v + 2 * z k2v + 2 * z k3v + z k4v) / 6) in
    let newR := Vector3.mk
      (x r + (x k1r + 2 * x k2r + 2 * x k3r + x k4r) / 6)
      (y r + (y k1r + 2 * y k2r + 2 * y k3r + y k4r) / 6)
      (z r + (z k1r + 2 * z k2r + 2 * z k3r + z k4r) / 6) in
    ret (Advanced,
         SimulationState.mk newR newV (pushTrail (history st) newR)
                            (time st + DT)).

(** [stepPhysics]: the signal and the content of [stateRef.current] when the
    call returns. *)
Definition stepPhysics (params : SimulationParams) (st : SimulationState)
  : Signal * SimulationState :=
  fst (stepPhysicsLogged params st).

(** The arguments of the [accel] calls of one [stepPhysics], in order. *)
Definition accelCalls (params : SimulationParams) (st : SimulationState)
  : list Vector3 :=
  snd (stepPhysicsLogged params st).

(** ** Reset and parameter updates *)

(** [resetSimulation]: a fresh state object built from the current params. *)
Definition resetSimulation (params : SimulationParams) : SimulationState :=
  SimulationState.mk (Vector3.mk 0 0 0) (SimulationParams.velocity params) [] 0.

(** The refs of the component that the params effect reads and writes. *)
Record Refs : Type := mkRefs
  { stateRef : SimulationState;
    paramsRef : SimulationParams;
    prevParamsRef : SimulationParams }.

(** The state the component is mounted with ([useRef] initial values). *)
Definition mount (params : SimulationParams) : Refs :=
  mkRefs (resetSimulation params) params params.

(** The body of [useEffect(..., [params])], run when [params] is replaced. *)
Definition onParamsChange (params : SimulationParams) (c : Refs) : Refs :=
  let prevV := SimulationParams.velocity (prevParamsRef c) in
  let newV := SimulationParams.velocity params in
  let st := stateRef c in
  let st' :=
    if neqb (x prevV) (x newV) || neqb (y prevV) (y newV)
       || neqb (z prevV) (z newV)
    then SimulationState.mk (position st) newV (history st) (time st)
    else st in
  mkRefs st' params params.

(** ** Playback *)

(** The first [n] frames of [animate] while [isPlaying] holds: [Some] of the
    state reached when each of the [n] calls of [stepPhysics] advanced,
    [None] as soon as one of them stopped the playback. *)
Fixpoint steps (n : nat) (params : SimulationParams) (st : SimulationState)
  : option SimulationState :=
  match n with
  | O => Some st
  | S k =>
      match stepPhysics params st with
      | (Advanced, st') => steps k params st'
      | (Halted, _) => None
      end
  end.

(** One frame of [animate] together with [handleStop] of App.tsx: the step
    runs only while playing, and [onStop()] clears [isPlaying]. *)
Definition animate (params : SimulationParams)
  (w : bool * SimulationState) : bool * SimulationState :=
  let (isPlaying, st) := w in
  if isPlaying then
    match stepPhysics params st with
    | (Advanced, st') => (true, st')
    | (Halted, st') => (false, st')
    end
  else (false, st).

(** [n] consecutive frames, the first one first. *)
Fixpoint frames (n : nat) (params : SimulationParams)
  (w : bool * SimulationState) : bool * SimulationState :=
  match n with
  | O => w
  | S k => frames k params (animate params w)
  end.

(** ** Projection and label clipping *)

Module Projected.
Record t : Type := mk { x : R; y : R; scale : R }.
End Projected.

Module Point2.
Record t : Type := mk { x : R; y : R }.
End Point2.

(** [project]: yaw rotation, pitch rotation, perspective divide. *)
Definition project (camera : CameraState) (p : Vector3) (width height : R)
  : Projected.t :=
  let cosY := cos (yaw camera) in
  let sinY := sin (yaw camera) in
  let x1 := x p * cosY - y p * sinY in
  let y1 := x p * sinY + y p * cosY in
  let z1 := z p in
  let cosP := cos (pitch camera) in
  let sinP := sin (pitch camera) in
  let y2 := y1 * cosP - z1 * sinP in
  let z2 := y1 * sinP + z1 * cosP in
  let fov := 600 in
  let cameraDistance := 400 in
  let depth := cameraDistance + y2 in
  let perspective := fov / Rmax 1 depth in
  let scale := perspective * zoom camera in
  let centerX := width / 2 - 100 in
  Projected.mk (x1 * scale + centerX) (- z2 * scale + height / 2) scale.

(** The [for] loop of [getLabelPosition] over the edges not yet visited,
    each edge given as its pair ([p[i]], [q[i]]).  [None] is an early
    [return null]; otherwise the final values of [t0] and [t1]. *)
Fixpoint clipEdges (edges : list (R * R)) (t0 t1 : R) : option (R * R) :=
  match edges with
  | [] => Some (t0, t1)
  | (p, q) :: rest =>
      if eqb p 0 then
        if ltb q 0 then None else clipEdges rest t0 t1
      else
        let t := q / p in
        if ltb p 0 then
          if gtb t t1 then None
          else clipEdges rest (if gtb t t0 then t else t0) t1
        else
          if ltb t t0 then None
          else clipEdges rest t0 (if ltb t t1 then t else t1)
  end.

(** The arrays [p] and [q] of [getLabelPosition], zipped. *)
Definition labelEdges (p0 p1 : Projected.t) (width height : R)
  : list (R * R) :=
  let padding := 25 in
  let minX := padding in
  let maxX := width - padding in
  let minY := padding in
  let maxY := height - padding in
  let dx := Projected.x p1 - Projected.x p0 in
  let dy := Projected.y p1 - Projected.y p0 in
  [ (- dx, Projected.x p0 - minX); (dx, maxX - Projected.x p0);
    (- dy, Projected.y p0 - minY); (dy, maxY - Projected.y p0) ].

Definition getLabelPosition (camera : CameraState) (origin axisTip : Vector3)
  (width height : R) : option Point2.t :=
  let p0 := project camera origin width height in
  let p1 := project camera axisTip width height in
  let dx := Projected.x p1 - Projected.x p0 in
  let dy := Projected.y p1 - Projected.y p0 in
  match clipEdges (labelEdges p0 p1 width height) 0 1 with
  | None => None
  | Some (t0, t1) =>
      if gtb t0 t1 then None
      else Some (Point2.mk (Projected.x p0 + t1 * dx)
                           (Projected.y p0 + t1 * dy))
  end.

(** ** Vector algebra used to state the properties *)

Definition origin : Vector3 := Vector3.mk 0 0 0.

Definition vadd (a b : Vector3) : Vector3 :=
  Vector3.mk (x a + x b) (y a + y b) (z a + z b).

Definition vscale (k : R) (a : Vector3) : Vector3 :=
  Vector3.mk (k * x a) (k * y a) (k * z a).

Definition vdiv (a : Vector3) (k : R) : Vector3 :=
  Vector3.mk (x a / k) (y a / k) (z a / k).

Definition cross (a b : Vector3) : Vector3 :=
  Vector3.mk (y a * z b - z a * y b)
             (z a * x b - x a * z b)
             (x a * y b - y a * x b).

Definition dot (a b : Vector3) : R := x a * x b + y a * y b + z a * z b.

(** |a|^2 and |a|. *)
Definition norm2 (a : Vector3) : R := dot a a.
Definition norm (a : Vector3) : R := sqrt (norm2 a).

(** Every component within the domain limit. *)
Definition inBounds (r : Vector3) : Prop :=
  Rabs (x r) <= BOUNDS_LIMIT /\ Rabs (y r) <= BOUNDS_LIMIT
  /\ Rabs (z r) <= BOUNDS_LIMIT.

(** Some component beyond the domain limit. *)
Definition exceedsBounds (r : Vector3) : Prop :=
  Rabs (x r) > BOUNDS_LIMIT \/ Rabs (y r) > BOUNDS_LIMIT
  \/ Rabs (z r) > BOUNDS_LIMIT.

(** No magnetic force: zero field or zero charge. *)
Definition fieldFree (params : SimulationParams) : Prop :=
  bField params = origin \/ charge params = 0.

(** The squared turning angle of one step, (dt q/m)^2 |B|^2, and the factor
    by which one step of the scheme scales |v|^2 when v is perpendicular
    to B. *)
Definition turn2 (params : SimulationParams) : R :=
  (charge params / mass params * DT) ^ 2 * norm2 (bField params).

Definition decay (w : R) : R := 1 - w ^ 3 / 72 + w ^ 4 / 576.

(** ** The integration scheme as the specification words it

    The Lorentz acceleration and the four stages of the classical
    Runge-Kutta scheme for dv/dt = a(v), dr/dt = v, on vectors. *)

Definition lorentz (q m : R) (B v : Vector3) : Vector3 :=
  vscale (q / m) (cross v B).

Record Stages : Type := mkStages
  { at1 : Vector3; at2 : Vector3; at3 : Vector3; at4 : Vector3;
    k1v : Vector3; k2v : Vector3; k3v : Vector3; k4v : Vector3;
    k1r : Vector3; k2r : Vector3; k3r : Vector3; k4r : Vector3 }.

Definition rk4Stages (a : Vector3 -> Vector3) (dt : R) (v : Vector3)
  : Stages :=
  let p1 := v in
  let kv1 := vscale dt (a p1) in
  let p2 := vadd v (vdiv kv1 2) in
  let kv2 := vscale dt (a p2) in
  let p3 := vadd v (vdiv kv2 2) in
  let kv3 := vscale dt (a p3) in
  let p4 := vadd v kv3 in
  let kv4 := vscale dt (a p4) in
  mkStages p1 p2 p3 p4 kv1 kv2 kv3 kv4
           (vscale dt p1) (vscale dt p2) (vscale dt p3) (vscale dt p4).

(** u + (k1 + 2 k2 + 2 k3 + k4) / 6 *)
Definition rk4Combine (u k1 k2 k3 k4 : Vector3) : Vector3 :=
  vadd u (vdiv (vadd (vadd (vadd k1 (vscale 2 k2)) (vscale 2 k3)) k4) 6).

(** The positions that [n] steps produce, in order (step number 0 first). *)
Fixpoint produced (n : nat) (params : SimulationParams) (st : SimulationState)
  : list Vector3 :=
  match n with
  | O => []
  | S k =>
      let st' := snd (stepPhysics params st) in
      position st' :: produced k params st'
  end.

(** ** The operations that touch the simulation state *)

Inductive Op : Type :=
| Frame                              (* one [animate] frame while playing *)
| Reset                              (* [resetSimulation] *)
| SetParams (p : SimulationParams).  (* the parent passes new params *)

Definition applyOp (op : Op) (c : Refs) : Refs :=
  match op with
  | Frame =>
      mkRefs (snd (stepPhysics (paramsRef c) (stateRef c)))
             (paramsRef c) (prevParamsRef c)
  | Reset =>
      mkRefs (resetSimulation (paramsRef c)) (paramsRef c) (prevParamsRef c)
  | SetParams p => onParamsChange p c
  end.

Definition trailBounded (c : Refs) : Prop :=
  (length (history (stateRef c)) <= TRAIL_LENGTH)%nat.

(** ** The camera model as the specification words it

    Rotation by the yaw angle about the vertical (z) axis, then rotation by
    the pitch angle about the resulting horizontal (x) axis. *)

Definition rotateYaw (a : R) (p : Vector3) : Vector3 :=
  Vector3.mk (x p * cos a - y p * sin a) (x p * sin a + y p * cos a) (z p).

Definition rotatePitch (a : R) (p : Vector3) : Vector3 :=
  Vector3.mk (x p) (y p * cos a - z p * sin a) (y p * sin a + z p * cos a).

(** A function of the zoom that never decreases, or never increases. *)
Definition monotone (f : R -> R) : Prop :=
  (forall a b, a <= b -> f a <= f b) \/ (forall a b, a <= b -> f b <= f a).

(** ** The parametric clipping as the specification words it

    Entry and exit parameters against all the edges: [t0] is raised by every
    entering edge ([p < 0]), [t1] lowered by every leaving edge ([p > 0]);
    an edge parallel to the line ([p = 0]) rejects when the line is on its
    outer side ([q < 0]). *)

Definition raiseEntry (t0 : R) (e : R * R) : R :=
  if ltb (fst e) 0 then Rmax t0 (snd e / fst e) else t0.

Definition lowerExit (t1 : R) (e : R * R) : R :=
  if ltb 0 (fst e) then Rmin t1 (snd e / fst e) else t1.

Definition lbEntry (edges : list (R * R)) : R := fold_left raiseEntry edges 0.

Definition lbExit (edges : list (R * R)) : R := fold_left lowerExit edges 1.

Definition lbParallelOutside (edges : list (R * R)) : bool :=
  existsb (fun e => eqb (fst e) 0 && ltb (snd e) 0) edges.

(** The point of the projected segment from [p0] to [p1] at parameter [t],
    and the viewport rectangle inset by the 25px padding. *)
Definition segmentPoint (p0 p1 : Projected.t) (t : R) : Point2.t :=
  Point2.mk (Projected.x p0 + t * (Projected.x p1 - Projected.x p0))
            (Projected.y p0 + t * (Projected.y p1 - Projected.y p0)).

Definition insideInset (width height : R) (pt : Point2.t) : Prop :=
  25 <= Point2.x pt <= width - 25 /\ 25 <= Point2.y pt <= height - 25.

(** ** Configurations used as examples *)

(** The params App.tsx starts with. *)
Definition initialParams : SimulationParams :=
  SimulationParams.mk 2 1 (Vector3.mk 5 0 2) (Vector3.mk 0 0 2).

(** A particle beyond the x limit, as a run with v = (20, 0, 0) leaves it. *)
Definition strayState : SimulationState :=
  SimulationState.mk (Vector3.mk 321 0 0) (Vector3.mk 20 0 0)
                     [Vector3.mk 321 0 0] 16.05.

(** The component after one step of a particle with v = (20, 0, 0) and no
    field, and params that differ from its params in [velocity] alone. *)
Definition movedRefs : Refs :=
  let p := SimulationParams.mk 1 1 (Vector3.mk 20 0 0) (Vector3.mk 0 0 0) in
  mkRefs (SimulationState.mk (Vector3.mk 1 0 0) (Vector3.mk 20 0 0)
                             [Vector3.mk 1 0 0] 0.05) p p.

Definition slowerParams : SimulationParams :=
  SimulationParams.mk 1 1 (Vector3.mk 10 0 0) (Vector3.mk 0 0 0).

(** An uncharged particle moving along x. *)
Definition neutralParams : SimulationParams :=
  SimulationParams.mk 1 0 (Vector3.mk 1 0 0) (Vector3.mk 0 0 2).

(** Light, strongly charged particle in a strong field, all three values
    inside the ranges of the control panel's sliders:
    mass 0.5, charge 5, v = (1, 0, 0), B = (0, 0, 4). *)
Definition stiffParams : SimulationParams :=
  SimulationParams.mk 0.5 5 (Vector3.mk 1 0 0) (Vector3.mk 0 0 4).

(** A particle on the x limit, moving outwards with v = (20, 0, 0). *)
Definition edgeParams : SimulationParams :=
  SimulationParams.mk 1 0 (Vector3.mk 20 0 0) (Vector3.mk 0 0 0).

Definition edgeState : SimulationState :=
  SimulationState.mk (Vector3.mk 320 0 0) (Vector3.mk 20 0 0)
                     [Vector3.mk 320 0 0] 16.

(** The initial params without the drift along the field: a circle. *)
Definition circleParams : SimulationParams :=
  SimulationParams.mk 2 1 (Vector3.mk 5 0 0) (Vector3.mk 0 0 2).

(** A camera looking along the y axis, without zoom, and the tip of the
    x axis as [draw] passes it to [getLabelPosition]. *)
Definition frontCamera : CameraState := CameraState.mk 0 0 1.

Definition xAxisTip : Vector3 := Vector3.mk AXIS_DRAW_EXTENT 0 0.

(** The last [k] elements of a list. *)
Definition lastn {A : Type} (k : nat) (l : list A) : list A :=
  skipn (length l - k) l.

(** ** Sequences of operations *)

(** The operations of [ops] applied in order, the first one first. *)
Definition run (ops : list Op) (c : Refs) : Refs :=
  fold_left (fun c op => applyOp op c) ops c.

(** The last position of the trail is the particle's position. *)
Definition trailAtParticle (st : SimulationState) : Prop :=
  history st = [] \/ last (history st) origin = position st.

Definition vsub (a b : Vector3) : Vector3 :=
  Vector3.mk (x a - x b) (y a - y b) (z a - z b).

(** The depth [project] divides by, before its clamp at 1. *)
Definition viewDepth (camera : CameraState) (p : Vector3) : R :=
  400 + y (rotatePitch (pitch camera) (rotateYaw (yaw camera) p)).

(** ** Camera controls of SimulationCanvas.tsx

    The [camera] state with the refs [isDragging] and [lastMousePos].
    [setCamera] is called with an updater of the previous camera; the
    handlers below return the controls with that updater applied. *)

Module Controls.
Record t : Type := mk
  { camera : CameraState; isDragging : bool; lastMousePos : Point2.t }.
End Controls.

(** The initial values given to [useState] and [useRef]. *)
Definition initialControls : Controls.t :=
  Controls.mk (CameraState.mk 0.3 (- PI / 2) 1.2) false (Point2.mk 0 0).

Definition handleMouseDown (clientX clientY : R) (c : Controls.t)
  : Controls.t :=
  Controls.mk (Controls.camera c) true (Point2.mk clientX clientY).

Definition handleMouseMove (clientX clientY : R) (c : Controls.t)
  : Controls.t :=
  if negb (Controls.isDragging c) then c
  else
    let dx := clientX - Point2.x (Controls.lastMousePos c) in
    let dy := clientY - Point2.y (Controls.lastMousePos c) in
    let prev := Controls.camera c in
    Controls.mk
      (CameraState.mk
         (Rmax (- PI / 2) (Rmin (PI / 2) (pitch prev + dy * 0.005)))
         (yaw prev + dx * 0.005)
         (zoom prev))
      (Controls.isDragging c)
      (Point2.mk clientX clientY).

Definition handleMouseUp (c : Controls.t) : Controls.t :=
  Controls.mk (Controls.camera c) false (Controls.lastMousePos c).

Definition handleWheel (deltaY : R) (c : Controls.t) : Controls.t :=
  let prev := Controls.camera c in
  Controls.mk
    (CameraState.mk (pitch prev) (yaw prev)
                    (Rmax 0.1 (Rmin 5 (zoom prev - deltaY * 0.001))))
    (Controls.isDragging c)
    (Controls.lastMousePos c).

(** The events the container of the canvas listens to; [onMouseLeave] is
    bound to [handleMouseUp]. *)
Inductive Gesture : Type :=
| MouseDown (clientX clientY : R)
| MouseMove (clientX clientY : R)
| MouseUp
| MouseLeave
| Wheel (deltaY : R).

Definition handle (c : Controls.t) (g : Gesture) : Controls.t :=
  match g with
  | MouseDown cx cy => handleMouseDown cx cy c
  | MouseMove cx cy => handleMouseMove cx cy c
  | MouseUp => handleMouseUp c
  | MouseLeave => handleMouseUp c
  | Wheel dY => handleWheel dY c
  end.

(** The pitch within a quarter turn of the horizon, the zoom within
    [0.1, 5]. *)
Definition withinLimits (cam : CameraState) : Prop :=
  - PI / 2 <= pitch cam <= PI / 2 /\ 0.1 <= zoom cam <= 5.

(** Mouse moves at the pointer positions [moves], in order. *)
Definition drag (moves : list (R * R)) (c : Controls.t) : Controls.t :=
  fold_left (fun c m => handleMouseMove (fst m) (snd m) c) moves c.

(** ** ControlPanel.tsx

    The inputs call [updateVector] with the key ['velocity'] or ['bField']
    and [updateScalar] with ['charge'] or ['mass'].  The value comes from
    [parseFloat]: [None] stands for NaN.  The result is [None] when the
    function returns without calling [setParams], and otherwise the params
    that the updater passed to [setParams] builds from the previous ones. *)

Inductive VectorKey : Type := KeyVelocity | KeyBField.
Inductive ScalarKey : Type := KeyCharge | KeyMass.
Inductive Axis : Type := AxisX | AxisY | AxisZ.

Definition getAxis (axis : Axis) (v : Vector3) : R :=
  match axis with AxisX => x v | AxisY => y v | AxisZ => z v end.

(** [{ ...v, [axis]: value }] *)
Definition setAxis (axis : Axis) (value : R) (v : Vector3) : Vector3 :=
  match axis with
  | AxisX => Vector3.mk value (y v) (z v)
  | AxisY => Vector3.mk (x v) value (z v)
  | AxisZ => Vector3.mk (x v) (y v) value
  end.

Definition updateVector (key : VectorKey) (axis : Axis) (value : option R)
  (prev : SimulationParams) : option SimulationParams :=
  match value with
  | None => None
  | Some v =>
      Some match key with
           | KeyVelocity =>
               SimulationParams.mk
                 (mass prev) (charge prev)
                 (setAxis axis v (SimulationParams.velocity prev))
                 (bField prev)
           | KeyBField =>
               SimulationParams.mk
                 (mass prev) (charge prev)
                 (SimulationParams.velocity prev)
                 (setAxis axis v (bField prev))
           end
  end.

Definition updateScalar (key : ScalarKey) (value : option R)
  (prev : SimulationParams) : option SimulationParams :=
  match value with
  | None => None
  | Some v =>
      Some match key with
           | KeyCharge =>
               SimulationParams.mk (mass prev) v
                 (SimulationParams.velocity prev) (bField prev)
           | KeyMass =>
               SimulationParams.mk v (charge prev)
                 (SimulationParams.velocity prev) (bField prev)
           end
  end.

(** What an edit does to the canvas: when [setParams] was called, App
    renders the canvas with the new params and the params effect runs. *)
Definition editParams (update : option SimulationParams) (c : Refs) : Refs :=
  match update with
  | None => c
  | Some params => onParamsChange params c
  end.

(** ** Drawing

    [draw] as the list of the calls it makes on the 2D context, in order.
    [width] and [height] are the size of the canvas. *)

(** [Math.atan2(b, a)] on real numbers: the angle of the point (a, b) in
    (-PI, PI], and 0 at the origin. *)
Definition atan2 (b a : R) : R :=
  if gtb a 0 then atan (b / a)
  else if ltb a 0 then
         if ltb b 0 then atan (b / a) - PI else atan (b / a) + PI
  else if gtb b 0 then PI / 2
  else if ltb b 0 then - PI / 2
  else 0.

Inductive Paint : Type :=
| Color (css : String.string)
| RadialGradient (x0 y0 r0 x1 y1 r1 : R)
                 (stops : list (R * String.string)).

Inductive Cmd : Type :=
| SetFillStyle (paint : Paint)
| FillRect (px py w h : R)
| BeginPath
| MoveTo (px py : R)
| LineTo (px py : R)
| SetStrokeStyle (css : String.string)
| SetLineWidth (w : R)
| SetLineDash (segments : list R)
| Stroke
| Fill
| SetFont (font : String.string)
| FillText (text : String.string) (px py : R)
| Arc (px py radius startAngle endAngle : R)
| SetShadowBlur (blur : R)
| SetShadowColor (css : String.string).

Definition drawLine3D (camera : CameraState) (width height : R)
  (p1 p2 : Vector3) (color : String.string) (widthLine : R) (dashed : bool)
  : list Cmd :=
  let start := project camera p1 width height in
  let end_ := project camera p2 width height in
  [ BeginPath;
    MoveTo (Projected.x start) (Projected.y start);
    LineTo (Projected.x end_) (Projected.y end_);
    SetStrokeStyle color;
    SetLineWidth widthLine;
    SetLineDash (if dashed then [5; 5] else []);
    Stroke;
    SetLineDash [] ].

(** The box test that [drawArrow3D] makes on [start] and on [end]. *)
Definition offScreen (pt : Projected.t) (width height padding : R) : bool :=
  ltb (Projected.x pt) (- padding) || gtb (Projected.x pt) (width + padding)
  || ltb (Projected.y pt) (- padding)
  || gtb (Projected.y pt) (height + padding).

Definition drawArrow3D (camera : CameraState) (width height : R)
  (origin vector : Vector3) (color : String.string)
  (lengthScale headBase : R) : list Cmd :=
  let magnitude := sqrt (x vector ^ 2 + y vector ^ 2 + z vector ^ 2) in
  if ltb magnitude 0.1 then []
  else
    let endPoint := Vector3.mk (x origin + x vector * lengthScale)
                               (y origin + y vector * lengthScale)
                               (z origin + z vector * lengthScale) in
    let start := project camera origin width height in
    let end_ := project camera endPoint width height in
    let padding := 50 in
    if offScreen start width height padding
       && offScreen end_ width height padding
    then []
    else
      let angle := atan2 (Projected.y end_ - Projected.y start)
                         (Projected.x end_ - Projected.x start) in
      let headLen := headBase * Projected.scale end_ in
      let headAngle := PI / 12 in
      [ BeginPath;
        MoveTo (Projected.x start) (Projected.y start);
        LineTo (Projected.x end_) (Projected.y end_);
        SetStrokeStyle color;
        SetLineWidth (0.5 * Projected.scale start);
        Stroke;
        BeginPath;
        MoveTo (Projected.x end_) (Projected.y end_);
        LineTo (Projected.x end_ - headLen * cos (angle - headAngle))
               (Projected.y end_ - headLen * sin (angle - headAngle));
        LineTo (Projected.x end_ - headLen * cos (angle + headAngle))
               (Projected.y end_ - headLen * sin (angle + headAngle));
        LineTo (Projected.x end_) (Projected.y end_);
        SetFillStyle (Color color);
        Fill ].

(** The parts of [draw], in the order of the source. *)

Definition drawBackground (width height : R) : list Cmd :=
  [ SetFillStyle
      (RadialGradient (width / 2 - 100) (height / 2) 0
                      (width / 2) (height / 2) width
                      [(0, "#1e293b"%string); (1, "#020617"%string)]);
    FillRect 0 0 width height ].

Definition drawAxes (camera : CameraState) (width height : R) : list Cmd :=
  let E := AXIS_DRAW_EXTENT in
  drawLine3D camera width height (Vector3.mk (- E) 0 0) (Vector3.mk E 0 0)
             "#475569" 1 false
  ++ drawLine3D camera width height (Vector3.mk 0 (- E) 0) (Vector3.mk 0 E 0)
                "#475569" 1 false
  ++ drawLine3D camera width height (Vector3.mk 0 0 (- E)) (Vector3.mk 0 0 E)
                "#475569" 1 false.

(** One label: [getLabelPosition] from the origin, then the text when a
    position came back. *)
Definition drawLabel (camera : CameraState) (width height : R)
  (axisTip : Vector3) (color text : String.string) : list Cmd :=
  match getLabelPosition camera (Vector3.mk 0 0 0) axisTip width height with
  | Some pos =>
      [ SetFillStyle (Color color);
        FillText text (Point2.x pos) (Point2.y pos) ]
  | None => []
  end.

Definition drawLabels (camera : CameraState) (width height : R) : list Cmd :=
  let E := AXIS_DRAW_EXTENT in
  SetFont "bold 14px Assistant"
  :: drawLabel camera width height (Vector3.mk E 0 0) "#f87171" "X"
  ++ drawLabel camera width height (Vector3.mk 0 E 0) "#4ade80" "Y"
  ++ drawLabel camera width height (Vector3.mk 0 0 E) "#60a5fa" "Z".

(** The values of each of the three loop counters, from [-count] to
    [count]. *)
Definition gridIndices : list R := [-4; -3; -2; -1; 0; 1; 2; 3; 4].

Definition drawField (camera : CameraState) (width height : R)
  (bVec : Vector3) : list Cmd :=
  let bMag := sqrt (x bVec ^ 2 + y bVec ^ 2 + z bVec ^ 2) in
  if gtb bMag 0.1 then
    let spacing := 120 in
    flat_map (fun gx =>
      flat_map (fun gy =>
        flat_map (fun gz =>
          let origin :=
            Vector3.mk (gx * spacing) (gy * spacing) (gz * spacing) in
          drawArrow3D camera width height origin bVec
                      "rgba(148, 163, 184, 0.15)" 8 10)
          gridIndices)
        gridIndices)
      gridIndices
  else [].

(** The linear gradient that the source creates here is never given to the
    context, so it leaves no call. *)
Definition drawTrajectory (camera : CameraState) (width height : R)
  (history : list Vector3) : list Cmd :=
  if (1 <? length history)%nat then
    let start := project camera (nth 0 history (Vector3.mk 0 0 0))
                         width height in
    BeginPath
    :: MoveTo (Projected.x start) (Projected.y start)
    :: map (fun h => let p := project camera h width height in
                     LineTo (Projected.x p) (Projected.y p))
           (skipn 1 history)
    ++ [ SetStrokeStyle "#22d3ee"; SetLineWidth 2; Stroke ]
  else [].

Definition drawParticle (camera : CameraState) (width height : R)
  (pos : Vector3) (charge : R) : list Cmd :=
  let screenPos := project camera pos width height in
  let size := Rmax 1 (2 * Projected.scale screenPos) in
  let fillStyle : String.string :=
    (if gtb charge 0 then "#ef4444"
     else if ltb charge 0 then "#3b82f6" else "#94a3b8")%string in
  [ BeginPath;
    Arc (Projected.x screenPos) (Projected.y screenPos) size 0 (PI * 2);
    SetFillStyle (Color fillStyle);
    SetShadowBlur 8;
    SetShadowColor fillStyle;
    Fill;
    SetShadowBlur 0 ].

Definition draw (camera : CameraState) (c : Refs) (width height : R)
  : list Cmd :=
  drawBackground width height
  ++ drawAxes camera width height
  ++ drawLabels camera width height
  ++ drawField camera width height (bField (paramsRef c))
  ++ drawTrajectory camera width height (history (stateRef c))
  ++ drawParticle camera width height (position (stateRef c))
                  (charge (paramsRef c))
  ++ drawArrow3D camera width height (position (stateRef c))
                 (velocity (stateRef c)) "#facc15" 0.6 5.

(** ** Further configurations used as examples *)

(** A light, strongly charged particle in a field of 8 along z: the step
    turns the velocity by (dt q/m |B|)^2 = 16. *)
Definition unstableParams : SimulationParams :=
  SimulationParams.mk 0.5 5 (Vector3.mk 1 0 0) (Vector3.mk 0 0 8).

(** The particle of [strayState] in a component whose params have no
    field. *)
Definition strayRefs : Refs := mkRefs strayState edgeParams edgeParams.

(** The initial params with twice the mass, the opposite charge doubled,
    and the opposite field. *)
Definition mirroredParams : SimulationParams :=
  SimulationParams.mk 4 (-2) (Vector3.mk 5 0 2) (Vector3.mk 0 0 (-2)).

(** * Properties *)

(** ** Comparisons *)

Lemma gtb_true (a b : R) : gtb a b = true <-> a > b.
Proof. unfold gtb. destruct (Rgt_dec a b); split; intros; try easy. Qed.

Lemma gtb_false (a b : R) : gtb a b = false <-> a <= b.
Proof.
  unfold gtb. destruct (Rgt_dec a b); split; intros; try easy; lra.
Qed.

Lemma ltb_true (a b : R) : ltb a b = true <-> a < b.
Proof. unfold ltb. destruct (Rlt_dec a b); split; intros; try easy. Qed.

Lemma ltb_false (a b : R) : ltb a b = false <-> b <= a.
Proof.
  unfold ltb. destruct (Rlt_dec a b); split; intros; try easy; lra.
Qed.

Lemma eqb_true (a b : R) : eqb a b = true <-> a = b.
Proof. unfold eqb. destruct (Req_dec_T a b); split; intros; try easy. Qed.

Lemma eqb_false (a b : R) : eqb a b = false <-> a <> b.
Proof. unfold eqb. destruct (Req_dec_T a b); split; intros; try easy. Qed.

Lemma neqb_true (a b : R) : neqb a b = true <-> a <> b.
Proof. unfold neqb. rewrite negb_true_iff. apply eqb_false. Qed.

Lemma neqb_false (a b : R) : neqb a b = false <-> a = b.
Proof. unfold neqb. rewrite negb_false_iff. apply eqb_true. Qed.

(** Settles a comparison between two numbers that [lra] can order. *)
Ltac decide_cmp :=
  match goal with
  | |- context [eqb ?a ?b] =>
      first [ replace (eqb a b) with true by (symmetry; apply eqb_true; lra)
            | replace (eqb a b) with false by (symmetry; apply eqb_false; lra) ]
  | |- context [ltb ?a ?b] =>
      first [ replace (ltb a b) with true by (symmetry; apply ltb_true; lra)
            | replace (ltb a b) with false by (symmetry; apply ltb_false; lra) ]
  | |- context [gtb ?a ?b] =>
      first [ replace (gtb a b) with true by (symmetry; apply gtb_true; lra)
            | replace (gtb a b) with false by (symmetry; apply gtb_false; lra) ]
  end.

(** ** The bounds test *)

Lemma outOfBounds_true (r : Vector3) :
  outOfBounds r = true <-> exceedsBounds r.
Proof.
  unfold outOfBounds, exceedsBounds.
  rewrite !orb_true_iff, !gtb_true. tauto.
Qed.

Lemma outOfBounds_false (r : Vector3) :
  outOfBounds r = false <-> inBounds r.
Proof.
  unfold outOfBounds, inBounds.
  rewrite !orb_false_iff, !gtb_false. tauto.
Qed.

Lemma inBounds_origin : inBounds origin.
Proof.
  unfold inBounds, origin, BOUNDS_LIMIT; simpl. rewrite Rabs_R0. lra.
Qed.

(** ** The integration step *)

Lemma vec_eq (a b c a' b' c' : R) :
  a = a' -> b = b' -> c = c' -> Vector3.mk a b c = Vector3.mk a' b' c'.
Proof. intros; subst; reflexivity. Qed.

(** The closure [accel] is the Lorentz acceleration (q/m) (v x B). *)
Lemma accel_lorentz (params : SimulationParams) (u : Vector3) :
  accel params u
  = lorentz (charge params) (mass params) (bField params) u.
Proof. reflexivity. Qed.

(** Out of bounds: [onStop()] and an early return, nothing evaluated. *)
Lemma stepPhysicsLogged_halted (params : SimulationParams)
  (st : SimulationState) :
  outOfBounds (position st) = true ->
  stepPhysicsLogged params st = ((Halted, st), []).
Proof.
  intros H. unfold stepPhysicsLogged. rewrite H. reflexivity.
Qed.

(** In bounds: the step advances. *)
Lemma stepPhysics_advanced (params : SimulationParams) (st : SimulationState) :
  outOfBounds (position st) = false ->
  stepPhysics params st = (Advanced, snd (stepPhysics params st)).
Proof.
  intros H. unfold stepPhysics, stepPhysicsLogged. rewrite H. reflexivity.
Qed.

(** C1. For a state with in-bounds position and params with mass > 0,
    [stepPhysics] evaluates the acceleration a(v) = (q/m)(v x B) exactly four
    times, at v, v + k1v/2, v + k2v/2 and v + k3v, where kiv = ai dt,
    kir = vi dt and dt = 0.05, and it returns
    v' = v + (k1v + 2 k2v + 2 k3v + k4v)/6,
    r' = r + (k1r + 2 k2r + 2 k3r + k4r)/6 and time' = time + dt. *)
Theorem step_rk4 (params : SimulationParams) (st : SimulationState) :
  inBounds (position st) -> mass params > 0 ->
  let a := lorentz (charge params) (mass params) (bField params) in
  let s := rk4Stages a 0.05 (velocity st) in
  (forall u, accel params u = a u) /\
  accelCalls params st = [at1 s; at2 s; at3 s; at4 s] /\
  exists st',
    stepPhysics params st = (Advanced, st') /\
    velocity st' = rk4Combine (velocity st) (k1v s) (k2v s) (k3v s) (k4v s) /\
    position st' = rk4Combine (position st) (k1r s) (k2r s) (k3r s) (k4r s) /\
    time st' = time st + 0.05.
Proof.
  intros Hb Hm a s. apply outOfBounds_false in Hb.
  split; [intros u; apply accel_lorentz|].
  unfold stepPhysics, accelCalls, stepPhysicsLogged. rewrite Hb.
  subst s a.
  cbv beta iota zeta delta
    [bind call ret fst snd app rk4Stages rk4Combine lorentz accel vadd vdiv
     vscale cross DT at1 at2 at3 at4 k1v k2v k3v k4v k1r k2r k3r k4r x y z].
  destruct (velocity st) as [v1 v2 v3].
  destruct (position st) as [r1 r2 r3].
  destruct (bField params) as [b1 b2 b3]. cbn [x y z].
  split.
  { do 2 f_equal; [apply vec_eq; lra|].
    f_equal; [apply vec_eq; lra|].
    f_equal; apply vec_eq; lra. }
  eexists. split; [reflexivity|]. cbn [velocity position time].
  split; [|split].
  - apply vec_eq; lra.
  - apply vec_eq; lra.
  - reflexivity.
Qed.

(** The example scenario of the specification: mass 2, charge 1,
    v = (5, 0, 2), B = (0, 0, 2), one step from the origin. *)
Lemma step_rk4_witness :
  inBounds (position (resetSimulation initialParams))
  /\ mass initialParams > 0
  /\ accel initialParams (Vector3.mk 5 0 2) = Vector3.mk 0 (- 5) 0
  /\ exists st',
       stepPhysics initialParams (resetSimulation initialParams)
       = (Advanced, st')
       /\ velocity st'
          = Vector3.mk (3835201 / 768000) (- (2399 / 9600)) 2
       /\ position st'
          = Vector3.mk (2399 / 9600) (- (4799 / 768000)) (1 / 10)
       /\ time st' = 0 + 0.05
       /\ length (accelCalls initialParams (resetSimulation initialParams))
          = 4%nat.
Proof.
  assert (Hb : inBounds (position (resetSimulation initialParams)))
    by exact inBounds_origin.
  assert (Hm : mass initialParams > 0) by (simpl; lra).
  split; [exact Hb|]. split; [exact Hm|].
  destruct (step_rk4 initialParams (resetSimulation initialParams) Hb Hm)
    as (Ha & Hc & st' & Hs & Hv & Hr & Ht).
  split.
  { rewrite Ha. unfold lorentz, vscale, cross, initialParams.
    cbn [charge mass bField x y z]. apply vec_eq; lra. }
  exists st'. split; [exact Hs|].
  split; [|split; [|split; [exact Ht|]]].
  - rewrite Hv.
    cbv beta iota zeta delta
      [rk4Stages rk4Combine lorentz vadd vdiv vscale cross
       k1v k2v k3v k4v x y z initialParams resetSimulation
       charge mass bField velocity SimulationParams.velocity].
    apply vec_eq; lra.
  - rewrite Hr.
    cbv beta iota zeta delta
      [rk4Stages rk4Combine lorentz vadd vdiv vscale cross
       k1r k2r k3r k4r x y z initialParams resetSimulation
       charge mass bField velocity position SimulationParams.velocity].
    apply vec_eq; lra.
  - rewrite Hc. reflexivity.
Defined.

(** C2. When some position component exceeds 320 in absolute value,
    [stepPhysics] raises the halt signal ([onStop()]) instead of producing a
    new state, evaluates nothing, and leaves position, velocity, history and
    time as they were; the playback flag is cleared and the state kept. *)
Theorem step_out_of_bounds_halts (params : SimulationParams)
  (st : SimulationState) :
  exceedsBounds (position st) ->
  stepPhysics params st = (Halted, st)
  /\ accelCalls params st = []
  /\ animate params (true, st) = (false, st).
Proof.
  intros H. apply outOfBounds_true in H.
  pose proof (stepPhysicsLogged_halted params st H) as E.
  unfold animate, stepPhysics, accelCalls. rewrite E. cbn.
  repeat split.
Qed.

Lemma step_out_of_bounds_halts_witness :
  exceedsBounds (position strayState)
  /\ stepPhysics initialParams strayState = (Halted, strayState).
Proof.
  assert (H : exceedsBounds (position strayState)).
  { left. simpl. unfold BOUNDS_LIMIT. rewrite Rabs_pos_eq; lra. }
  split; [exact H|].
  exact (proj1 (step_out_of_bounds_halts initialParams strayState H)).
Defined.

(** ** Reset and parameter updates *)

Lemma velocity_test (u w : Vector3) :
  neqb (x u) (x w) || neqb (y u) (y w) || neqb (z u) (z w) = true
  <-> u <> w.
Proof.
  rewrite !orb_true_iff, !neqb_true. destruct u as [a b c], w as [a' b' c'].
  cbn [x y z]. split.
  - intros H E. injection E as E1 E2 E3. tauto.
  - intros H. destruct (Req_dec_T a a') as [->|]; [|tauto].
    destruct (Req_dec_T b b') as [->|]; [|tauto].
    destruct (Req_dec_T c c') as [->|]; [|tauto].
    contradiction H; reflexivity.
Qed.

Lemma velocity_test_false (u w : Vector3) :
  neqb (x u) (x w) || neqb (y u) (y w) || neqb (z u) (z w) = false
  <-> u = w.
Proof.
  rewrite !orb_false_iff, !neqb_false. destruct u as [a b c], w as [a' b' c'].
  cbn [x y z]. split.
  - intros [[-> ->] ->]. reflexivity.
  - intros E. injection E as E1 E2 E3. tauto.
Qed.

(** C3, as stated, fails: after a change of [params.velocity] the state keeps
    its position, history and time. *)
Lemma params_velocity_change_no_reset :
  ~ (forall (params : SimulationParams) (c : Refs),
        SimulationParams.velocity params
        <> SimulationParams.velocity (prevParamsRef c) ->
        stateRef (onParamsChange params c) = resetSimulation params).
Proof.
  intros H. specialize (H slowerParams movedRefs).
  assert (Hv : SimulationParams.velocity slowerParams
               <> SimulationParams.velocity (prevParamsRef movedRefs)).
  { simpl. intros E. injection E as E. lra. }
  apply H in Hv. apply (f_equal position) in Hv.
  unfold onParamsChange in Hv.
  destruct (neqb _ _ || neqb _ _ || neqb _ _) in Hv; simpl in Hv;
    injection Hv as E; lra.
Qed.

(** C3, amended. A change of [params.velocity] overwrites the velocity of
    the state with the new one and keeps position, history and time; new
    params with the same velocity (a change of mass, charge or bField) leave
    the state as it is; [resetSimulation], and the remount that a reset
    request of App.tsx forces, alone install the state
    {position: origin, velocity: params.velocity, history: empty, time: 0}. *)
Theorem params_velocity_change (params : SimulationParams) (c : Refs) :
  let st := stateRef c in
  let st' := stateRef (onParamsChange params c) in
  (SimulationParams.velocity params
   <> SimulationParams.velocity (prevParamsRef c) ->
   st' = SimulationState.mk (position st) (SimulationParams.velocity params)
                            (history st) (time st))
  /\ (SimulationParams.velocity params
      = SimulationParams.velocity (prevParamsRef c) -> st' = st)
  /\ paramsRef (onParamsChange params c) = params
  /\ prevParamsRef (onParamsChange params c) = params
  /\ resetSimulation params
     = SimulationState.mk origin (SimulationParams.velocity params) [] 0
  /\ stateRef (mount params) = resetSimulation params.
Proof.
  intros st st'. subst st st'. unfold onParamsChange.
  cbn [stateRef paramsRef prevParamsRef].
  repeat split.
  - intros H. apply not_eq_sym in H. apply velocity_test in H.
    rewrite H. reflexivity.
  - intros H. symmetry in H. apply velocity_test_false in H.
    rewrite H. reflexivity.
Qed.

Lemma params_velocity_change_witness :
  SimulationParams.velocity slowerParams
  <> SimulationParams.velocity (prevParamsRef movedRefs)
  /\ stateRef (onParamsChange slowerParams movedRefs)
     = SimulationState.mk (Vector3.mk 1 0 0) (Vector3.mk 10 0 0)
                          [Vector3.mk 1 0 0] 0.05.
Proof.
  assert (Hv : SimulationParams.velocity slowerParams
               <> SimulationParams.velocity (prevParamsRef movedRefs)).
  { cbn. intros E. injection E as E. lra. }
  split; [exact Hv|].
  exact (proj1 (params_velocity_change slowerParams movedRefs) Hv).
Defined.

(** ** Motion without force *)

(** A stopped playback stays stopped and keeps its state. *)
Lemma frames_stopped (n : nat) (params : SimulationParams)
  (st : SimulationState) :
  frames n params (false, st) = (false, st).
Proof.
  induction n as [|n IH]; cbn [frames animate]; [reflexivity | exact IH].
Qed.

(** [steps] is the run of [animate] as long as the playback goes on. *)
Lemma steps_frames (n : nat) (params : SimulationParams) :
  forall st st',
    steps n params st = Some st'
    <-> frames n params (true, st) = (true, st').
Proof.
  induction n as [|n IH]; intros st st'; cbn [steps frames animate].
  - split; intros H; injection H as <-; reflexivity.
  - destruct (stepPhysics params st) as [[|] st1].
    + apply IH.
    + rewrite frames_stopped. split; discriminate.
Qed.

Section FieldFree.

Variable params : SimulationParams.
Hypothesis free : fieldFree params.

(** No field or no charge: no acceleration. *)
Lemma accel_fieldFree (u : Vector3) : accel params u = origin.
Proof.
  destruct free as [H|H]; unfold accel, origin.
  - rewrite H. unfold origin. cbn [x y z]. apply vec_eq; ring.
  - rewrite H. unfold Rdiv. rewrite Rmult_0_l. apply vec_eq; ring.
Qed.

(** The step is then r' = r + dt v, v' = v. *)
Lemma stepPhysics_fieldFree (st : SimulationState) :
  outOfBounds (position st) = false ->
  stepPhysics params st
  = (Advanced,
     SimulationState.mk
       (vadd (position st) (vscale DT (velocity st)))
       (velocity st)
       (pushTrail (history st)
                  (vadd (position st) (vscale DT (velocity st))))
       (time st + DT)).
Proof.
  intros Hb. unfold stepPhysics, stepPhysicsLogged. rewrite Hb.
  cbv beta iota zeta delta [bind call ret fst snd app].
  rewrite !accel_fieldFree.
  cbv beta iota zeta delta [origin vadd vscale x y z].
  destruct (velocity st) as [v1 v2 v3].
  destruct (position st) as [r1 r2 r3].
  match goal with
  | |- (_, SimulationState.mk ?a ?u (pushTrail _ ?a) _)
       = (_, SimulationState.mk ?b ?w (pushTrail _ ?b) _) =>
      replace a with b by (unfold DT; apply vec_eq; lra);
      replace u with w by (unfold DT; apply vec_eq; lra)
  end.
  reflexivity.
Qed.

(** [n] advancing steps: r = r0 + (n dt) v0, v = v0, t = t0 + n dt. *)
Lemma steps_fieldFree (n : nat) :
  forall st0 st,
    steps n params st0 = Some st ->
    velocity st = velocity st0
    /\ position st
       = vadd (position st0) (vscale (INR n * DT) (velocity st0))
    /\ time st = time st0 + INR n * DT.
Proof.
  induction n as [|n IH]; intros st0 st Hs.
  - injection Hs as <-. cbn [INR]. repeat split; [|lra].
    destruct (position st0) as [r1 r2 r3]. unfold vadd, vscale.
    cbn [x y z]. apply vec_eq; lra.
  - cbn [steps] in Hs. destruct (outOfBounds (position st0)) eqn:Hb.
    + unfold stepPhysics in Hs.
      rewrite (stepPhysicsLogged_halted _ _ Hb) in Hs. discriminate.
    + rewrite (stepPhysics_fieldFree _ Hb) in Hs.
      apply IH in Hs. cbn [velocity position time] in Hs.
      destruct Hs as (Hv & Hp & Ht).
      rewrite S_INR. repeat split.
      * exact Hv.
      * rewrite Hp. destruct (position st0) as [r1 r2 r3].
        destruct (velocity st0) as [v1 v2 v3].
        unfold vadd, vscale; cbn [x y z]. apply vec_eq; lra.
      * rewrite Ht. lra.
Qed.

(** The run goes on as long as the line stays within the bounds. *)
Lemma steps_fieldFree_total (n : nat) :
  forall st0,
    (forall k, (k < n)%nat ->
       inBounds (vadd (position st0) (vscale (INR k * DT) (velocity st0)))) ->
    exists st, steps n params st0 = Some st.
Proof.
  induction n as [|n IH]; intros st0 Hin.
  - exists st0. reflexivity.
  - assert (Hb : outOfBounds (position st0) = false).
    { apply outOfBounds_false. specialize (Hin 0%nat (Nat.lt_0_succ n)).
      replace (vadd (position st0) (vscale (INR 0 * DT) (velocity st0)))
        with (position st0) in Hin; [exact Hin|].
      destruct (position st0) as [r1 r2 r3]. unfold vadd, vscale.
      cbn [x y z INR]. apply vec_eq; lra. }
    cbn [steps]. rewrite (stepPhysics_fieldFree _ Hb).
    apply IH. intros k Hk. cbn [position velocity].
    specialize (Hin (S k) (proj1 (Nat.succ_lt_mono k n) Hk)).
    replace (vadd (vadd (position st0) (vscale DT (velocity st0)))
                  (vscale (INR k * DT) (velocity st0)))
      with (vadd (position st0) (vscale (INR (S k) * DT) (velocity st0)));
      [exact Hin|].
    rewrite S_INR. destruct (position st0) as [r1 r2 r3].
    destruct (velocity st0) as [v1 v2 v3]. unfold vadd, vscale.
    cbn [x y z]. apply vec_eq; lra.
Qed.

(** The state stays on the line r = (t - t0) v0 through every frame,
    stopped ones included. *)
Lemma frames_fieldFree (t0 : R) (v0 : Vector3) (m : nat) :
  forall w,
    velocity (snd w) = v0 ->
    position (snd w) = vscale (time (snd w) - t0) v0 ->
    velocity (snd (frames m params w)) = v0
    /\ position (snd (frames m params w))
       = vscale (time (snd (frames m params w)) - t0) v0.
Proof.
  induction m as [|m IH]; intros [b st] Hv Hp; cbn [frames].
  - split; assumption.
  - cbn [snd] in Hv, Hp.
    apply IH; unfold animate; destruct b; cbn [snd]; try assumption;
      destruct (outOfBounds (position st)) eqn:Hb.
    + unfold stepPhysics. rewrite (stepPhysicsLogged_halted _ _ Hb).
      exact Hv.
    + rewrite (stepPhysics_fieldFree _ Hb). exact Hv.
    + unfold stepPhysics. rewrite (stepPhysicsLogged_halted _ _ Hb).
      exact Hp.
    + rewrite (stepPhysics_fieldFree _ Hb). cbn [snd position time].
      rewrite Hp, Hv. destruct v0 as [v1 v2 v3]. unfold vadd, vscale.
      cbn [x y z]. apply vec_eq; lra.
Qed.

End FieldFree.

(** More than 3000 steps can all advance: the neutral particle with
    v = (1, 0, 0) is at x = 150.05 after 3001 steps. *)
Lemma neutral_run :
  exists st,
    steps (S TRAIL_LENGTH) neutralParams (resetSimulation neutralParams)
    = Some st.
Proof.
  apply steps_fieldFree_total; [right; reflexivity|].
  intros k Hk. apply lt_INR in Hk.
  assert (E : INR (S TRAIL_LENGTH) = 3001).
  { rewrite INR_IZR_INZ. apply f_equal. reflexivity. }
  rewrite E in Hk. pose proof (pos_INR k) as Hk0.
  unfold inBounds, vadd, vscale, resetSimulation, neutralParams, DT,
    BOUNDS_LIMIT.
  cbn [position velocity SimulationParams.velocity x y z].
  replace (0 + INR k * 0.05 * 0) with 0 by lra.
  rewrite Rabs_R0, Rabs_pos_eq by lra. lra.
Qed.

(** C6. With zero field or zero charge every step leaves the velocity as it
    is, and after n advancing steps from the origin the position is
    velocity * (n * 0.05): the trajectory is a straight line, and the
    clock has advanced by n * 0.05.  Through any number of frames, stopped
    ones included, the position is velocity * elapsed time. *)
Theorem free_motion_straight_line (params : SimulationParams)
  (st0 : SimulationState) (n : nat) (st : SimulationState) :
  bField params = Vector3.mk 0 0 0 \/ charge params = 0 ->
  position st0 = Vector3.mk 0 0 0 ->
  steps n params st0 = Some st ->
  (forall s, velocity (snd (stepPhysics params s)) = velocity s)
  /\ velocity st = velocity st0
  /\ position st = vscale (INR n * 0.05) (velocity st0)
  /\ time st = time st0 + INR n * 0.05
  /\ (forall m,
        let s := snd (frames m params (true, st0)) in
        velocity s = velocity st0
        /\ position s = vscale (time s - time st0) (velocity st0)).
Proof.
  intros Hf H0 Hs. split; [|split; [|split; [|split]]].
  - intros s. destruct (outOfBounds (position s)) eqn:Hb.
    + unfold stepPhysics. rewrite (stepPhysicsLogged_halted _ _ Hb).
      reflexivity.
    + rewrite (stepPhysics_fieldFree _ Hf _ Hb). reflexivity.
  - exact (proj1 (steps_fieldFree params Hf n st0 st Hs)).
  - destruct (steps_fieldFree params Hf n st0 st Hs) as (_ & Hp & _).
    rewrite Hp, H0. destruct (velocity st0) as [v1 v2 v3].
    unfold vadd, vscale, DT. cbn [x y z]. apply vec_eq; lra.
  - exact (proj2 (proj2 (steps_fieldFree params Hf n st0 st Hs))).
  - intros m.
    apply (frames_fieldFree params Hf (time st0) (velocity st0) m
             (true, st0)).
    + reflexivity.
    + cbn [snd]. rewrite H0. destruct (velocity st0) as [v1 v2 v3].
      unfold vscale. cbn [x y z]. apply vec_eq; lra.
Qed.

Lemma free_motion_straight_line_witness :
  exists st,
    steps 2 neutralParams (resetSimulation neutralParams) = Some st
    /\ velocity st = Vector3.mk 1 0 0
    /\ position st = vscale (INR 2 * 0.05) (Vector3.mk 1 0 0).
Proof.
  assert (Hf : bField neutralParams = Vector3.mk 0 0 0
               \/ charge neutralParams = 0) by (right; reflexivity).
  destruct (steps_fieldFree_total neutralParams Hf 2
              (resetSimulation neutralParams)) as [st Hs].
  { intros k Hk. apply lt_INR in Hk. pose proof (pos_INR k) as Hk0.
    change (INR 2) with (1 + 1) in Hk.
    unfold inBounds, vadd, vscale, resetSimulation, neutralParams, DT,
      BOUNDS_LIMIT.
    cbn [position velocity SimulationParams.velocity x y z].
    replace (0 + INR k * 0.05 * 0) with 0 by lra.
    rewrite Rabs_R0, Rabs_pos_eq by lra. lra. }
  exists st. split; [exact Hs|].
  destruct (free_motion_straight_line neutralParams
              (resetSimulation neutralParams) 2 st Hf eq_refl Hs)
    as (_ & Hv & Hp & _ & _).
  split; [exact Hv | exact Hp].
Defined.

(** ** The trail *)

Section Lastn.

Context {A : Type}.
Implicit Types (l m : list A) (k : nat).

Lemma lastn_length k l : length (lastn k l) = Nat.min k (length l).
Proof. unfold lastn. rewrite length_skipn. lia. Qed.

Lemma lastn_all k l : (length l <= k)%nat -> lastn k l = l.
Proof.
  intros H. unfold lastn. replace (length l - k)%nat with 0%nat by lia.
  reflexivity.
Qed.

(** Trimming early does not change what is left at the end. *)
Lemma lastn_app_lastn k l m : lastn k (lastn k l ++ m) = lastn k (l ++ m).
Proof.
  destruct (Nat.le_gt_cases (length l) k) as [H|H].
  - rewrite (lastn_all k l H). reflexivity.
  - unfold lastn at 1 3. rewrite !length_app, lastn_length.
    rewrite Nat.min_l by lia.
    unfold lastn.
    replace (length l + length m - k)%nat
      with ((k + length m - k) + (length l - k))%nat by lia.
    rewrite <- skipn_skipn. f_equal.
    rewrite skipn_app.
    replace (length l - k - length l)%nat with 0%nat by lia.
    reflexivity.
Qed.

Lemma lastn_head k l :
  (k < length l)%nat ->
  nth_error (lastn k l) 0 = nth_error l (length l - k).
Proof.
  intros H. unfold lastn. rewrite nth_error_skipn. f_equal. lia.
Qed.

End Lastn.

Lemma TRAIL_LENGTH_pos : (0 < TRAIL_LENGTH)%nat.
Proof. unfold TRAIL_LENGTH. lia. Qed.

(** On a trail within its capacity, push-then-shift keeps the last 3000. *)
Lemma pushTrail_lastn (h : list Vector3) (a : Vector3) :
  (length h <= TRAIL_LENGTH)%nat ->
  pushTrail h a = lastn TRAIL_LENGTH (h ++ [a]).
Proof.
  intros H. unfold pushTrail, lastn. rewrite length_app. cbn [length].
  generalize TRAIL_LENGTH_pos. generalize dependent TRAIL_LENGTH.
  intros T H HT.
  destruct (Nat.ltb_spec T (length h + 1)) as [L|L].
  - replace (length h + 1 - T)%nat with 1%nat by lia. reflexivity.
  - replace (length h + 1 - T)%nat with 0%nat by lia. reflexivity.
Qed.

Lemma pushTrail_length (h : list Vector3) (a : Vector3) :
  (length h <= TRAIL_LENGTH)%nat ->
  (length (pushTrail h a) <= TRAIL_LENGTH)%nat.
Proof.
  intros H. rewrite pushTrail_lastn by exact H. rewrite lastn_length. lia.
Qed.

(** The pushed point is the newest entry, whatever the length was. *)
Lemma pushTrail_last (h : list Vector3) (a : Vector3) :
  last (pushTrail h a) origin = a.
Proof.
  unfold pushTrail. generalize TRAIL_LENGTH_pos. generalize TRAIL_LENGTH.
  intros T HT.
  destruct (Nat.ltb_spec T (length (h ++ [a]))) as [L|L].
  - rewrite length_app in L. cbn [length] in L.
    destruct h as [|b h]; [cbn in L; lia|]. cbn [app tl]. apply last_last.
  - apply last_last.
Qed.

Lemma pushTrail_In (h : list Vector3) (a : Vector3) : In a (pushTrail h a).
Proof.
  unfold pushTrail. generalize TRAIL_LENGTH_pos. generalize TRAIL_LENGTH.
  intros T HT.
  destruct (Nat.ltb_spec T (length (h ++ [a]))) as [L|L].
  - rewrite length_app in L. cbn [length] in L.
    destruct h as [|b h]; [cbn in L; lia|]. cbn [app tl].
    apply in_or_app. right. left. reflexivity.
  - apply in_or_app. right. left. reflexivity.
Qed.

(** The history after an advancing step. *)
Lemma stepPhysics_history (params : SimulationParams)
  (st st' : SimulationState) :
  stepPhysics params st = (Advanced, st') ->
  history st' = pushTrail (history st) (position st').
Proof.
  unfold stepPhysics, stepPhysicsLogged.
  destruct (outOfBounds (position st)); [discriminate|].
  cbv beta iota zeta delta [bind call ret fst snd app].
  intros E. injection E as <-. reflexivity.
Qed.

Lemma stepPhysics_signal (params : SimulationParams) (st : SimulationState) :
  fst (stepPhysics params st)
  = if outOfBounds (position st) then Halted else Advanced.
Proof.
  unfold stepPhysics, stepPhysicsLogged.
  destruct (outOfBounds (position st)); reflexivity.
Qed.

Lemma produced_length (n : nat) :
  forall params st, length (produced n params st) = n.
Proof.
  induction n; intros; cbn [produced length]; [|rewrite IHn]; reflexivity.
Qed.

(** After [n] advancing steps the history is the last 3000 entries of the
    old history followed by the positions produced. *)
Lemma steps_history (n : nat) :
  forall params st0 st,
    (length (history st0) <= TRAIL_LENGTH)%nat ->
    steps n params st0 = Some st ->
    history st = lastn TRAIL_LENGTH (history st0 ++ produced n params st0).
Proof.
  induction n as [|n IH]; intros params st0 st Hl Hs.
  - injection Hs as <-. cbn [produced]. rewrite app_nil_r. symmetry.
    apply lastn_all, Hl.
  - cbn [steps produced] in *.
    destruct (stepPhysics params st0) as [[|] st1] eqn:E; [|discriminate].
    cbn [snd].
    pose proof (stepPhysics_history _ _ _ E) as Hh.
    assert (Hl1 : (length (history st1) <= TRAIL_LENGTH)%nat)
      by (rewrite Hh; apply pushTrail_length, Hl).
    rewrite (IH _ _ _ Hl1 Hs), Hh, pushTrail_lastn by exact Hl.
    rewrite lastn_app_lastn, <- app_assoc. reflexivity.
Qed.

Lemma onParamsChange_history (params : SimulationParams) (c : Refs) :
  history (stateRef (onParamsChange params c)) = history (stateRef c).
Proof.
  unfold onParamsChange. cbn [stateRef].
  destruct (neqb _ _ || neqb _ _ || neqb _ _); reflexivity.
Qed.

Lemma stepPhysics_trail (params : SimulationParams) (st : SimulationState) :
  (length (history st) <= TRAIL_LENGTH)%nat ->
  (length (history (snd (stepPhysics params st))) <= TRAIL_LENGTH)%nat.
Proof.
  intros H. destruct (stepPhysics params st) as [[|] st'] eqn:E; cbn [snd].
  - rewrite (stepPhysics_history _ _ _ E). apply pushTrail_length, H.
  - pose proof (stepPhysics_signal params st) as S. rewrite E in S.
    cbn [fst] in S. destruct (outOfBounds (position st)) eqn:Hb;
      [|discriminate].
    unfold stepPhysics in E. rewrite (stepPhysicsLogged_halted _ _ Hb) in E.
    injection E as <-. exact H.
Qed.

(** C4. Every advancing step appends the new position to the history and
    evicts the oldest entry beyond 3000; the state a component is mounted
    with has at most 3000 entries and every operation (frame, reset, new
    params) keeps that bound; after n > 3000 advancing steps from an empty
    history the history has exactly 3000 entries, the last 3000 positions
    produced, and its oldest entry is the position produced by step number
    n - 3000, steps being numbered from 0. *)
Theorem history_fifo :
  (forall params st st',
      stepPhysics params st = (Advanced, st') ->
      history st' = pushTrail (history st) (position st')
      /\ last (history st') origin = position st')
  /\ (forall params, trailBounded (mount params))
  /\ (forall op c, trailBounded c -> trailBounded (applyOp op c))
  /\ (forall n params st0 st,
        history st0 = [] ->
        steps n params st0 = Some st ->
        history st = lastn TRAIL_LENGTH (produced n params st0)
        /\ ((TRAIL_LENGTH < n)%nat ->
            length (history st) = TRAIL_LENGTH
            /\ nth_error (history st) 0
               = nth_error (produced n params st0) (n - TRAIL_LENGTH))).
Proof.
  split; [|split; [|split]].
  - intros params st st' E. pose proof (stepPhysics_history _ _ _ E) as H.
    split; [exact H|]. rewrite H. apply pushTrail_last.
  - intros params. unfold trailBounded, mount. cbn. lia.
  - intros op c H. unfold trailBounded in *.
    destruct op; cbn [applyOp stateRef].
    + apply stepPhysics_trail, H.
    + cbn. lia.
    + rewrite onParamsChange_history. exact H.
  - intros n params st0 st H0 Hs.
    assert (Hl : (length (history st0) <= TRAIL_LENGTH)%nat)
      by (rewrite H0; cbn; lia).
    pose proof (steps_history n params st0 st Hl Hs) as H.
    rewrite H0 in H. cbn [app] in H. split; [exact H|].
    intros Hn. rewrite H. split.
    + rewrite lastn_length, produced_length. lia.
    + rewrite lastn_head by (rewrite produced_length; exact Hn).
      rewrite produced_length. reflexivity.
Qed.

Lemma history_fifo_witness :
  exists st,
    steps (S TRAIL_LENGTH) neutralParams (resetSimulation neutralParams)
    = Some st
    /\ length (history st) = TRAIL_LENGTH
    /\ nth_error (history st) 0
       = nth_error (produced (S TRAIL_LENGTH) neutralParams
                             (resetSimulation neutralParams))
                   (S TRAIL_LENGTH - TRAIL_LENGTH).
Proof.
  destruct neutral_run as [st Hs]. exists st. split; [exact Hs|].
  exact (proj2 (proj2 (proj2 (proj2 history_fifo)) (S TRAIL_LENGTH)
                  neutralParams (resetSimulation neutralParams) st
                  eq_refl Hs)
               (Nat.lt_succ_diag_r TRAIL_LENGTH)).
Defined.

(** ** The bounds test reads the position before the step *)

Lemma edge_step :
  stepPhysics edgeParams edgeState
  = (Advanced,
     SimulationState.mk (Vector3.mk 321 0 0) (Vector3.mk 20 0 0)
       [Vector3.mk 320 0 0; Vector3.mk 321 0 0] (16 + 0.05)).
Proof.
  assert (Hf : fieldFree edgeParams) by (right; reflexivity).
  assert (Hb : outOfBounds (position edgeState) = false).
  { apply outOfBounds_false. unfold inBounds, edgeState, BOUNDS_LIMIT.
    cbn [position x y z]. rewrite Rabs_R0, Rabs_pos_eq by lra. lra. }
  rewrite (stepPhysics_fieldFree _ Hf _ Hb).
  unfold edgeState, vadd, vscale, DT.
  cbn [position velocity history time x y z].
  replace (Vector3.mk (320 + 0.05 * 20) (0 + 0.05 * 0) (0 + 0.05 * 0))
    with (Vector3.mk 321 0 0) by (apply vec_eq; lra).
  reflexivity.
Qed.

(** The trail after a push, against the list [h ++ [a]]: the whole of it
    while the trail is not full, and all but its oldest point from then
    on. *)
Lemma pushTrail_append (h : list Vector3) (a : Vector3) :
  ((length h < TRAIL_LENGTH)%nat -> pushTrail h a = h ++ [a])
  /\ ((TRAIL_LENGTH <= length h)%nat -> pushTrail h a = tl h ++ [a]).
Proof.
  unfold pushTrail. rewrite length_app. cbn [length].
  generalize TRAIL_LENGTH_pos. generalize TRAIL_LENGTH. intros T HT.
  split; intros H.
  - destruct (Nat.ltb_spec T (length h + 1)) as [L|L]; [lia | reflexivity].
  - destruct (Nat.ltb_spec T (length h + 1)) as [L|L]; [|lia].
    destruct h as [|b h]; [cbn in H; lia | reflexivity].
Qed.

(** C10. The bounds test inspects the position the step starts from: from
    every in-bounds position the step completes and appends the new position
    to the history, whether or not that position is within bounds; if it is
    not, the halt signal is raised by the following step, which leaves the
    state, out-of-bounds point included, as it is.  Appending is meant
    literally: the new history is the old one followed by the new position,
    in full while the trail holds fewer than 3000 points, and without its
    oldest point from then on (the last 3000 of the appended list).  Such
    states occur: from x = 320 with v = (20, 0, 0) one step stores
    x = 321 behind x = 320. *)
Theorem bounds_checked_before_step :
  (forall params st,
      inBounds (position st) ->
      exists st',
        stepPhysics params st = (Advanced, st')
        /\ history st' = pushTrail (history st) (position st')
        /\ In (position st') (history st')
        /\ (exceedsBounds (position st') ->
            stepPhysics params st' = (Halted, st'))
        /\ ((length (history st) < TRAIL_LENGTH)%nat ->
            history st' = history st ++ [position st'])
        /\ ((TRAIL_LENGTH <= length (history st))%nat ->
            history st' = tl (history st) ++ [position st'])
        /\ ((length (history st) <= TRAIL_LENGTH)%nat ->
            history st'
            = lastn TRAIL_LENGTH (history st ++ [position st']))
        /\ last (history st') origin = position st')
  /\ (exists params st st',
        inBounds (position st)
        /\ stepPhysics params st = (Advanced, st')
        /\ exceedsBounds (position st')
        /\ In (position st') (history st')
        /\ stepPhysics params st' = (Halted, st')
        /\ history st' = history st ++ [position st']).
Proof.
  assert (U : forall params st,
      inBounds (position st) ->
      exists st',
        stepPhysics params st = (Advanced, st')
        /\ history st' = pushTrail (history st) (position st')
        /\ In (position st') (history st')
        /\ (exceedsBounds (position st') ->
            stepPhysics params st' = (Halted, st'))
        /\ ((length (history st) < TRAIL_LENGTH)%nat ->
            history st' = history st ++ [position st'])
        /\ ((TRAIL_LENGTH <= length (history st))%nat ->
            history st' = tl (history st) ++ [position st'])
        /\ ((length (history st) <= TRAIL_LENGTH)%nat ->
            history st'
            = lastn TRAIL_LENGTH (history st ++ [position st']))
        /\ last (history st') origin = position st').
  { intros params st Hb. apply outOfBounds_false in Hb.
    pose proof (stepPhysics_advanced params st Hb) as E.
    exists (snd (stepPhysics params st)).
    pose proof (stepPhysics_history _ _ _ E) as Hh.
    split; [exact E|]. split; [exact Hh|]. split.
    { rewrite Hh. apply pushTrail_In. }
    split.
    { intros Hx. apply outOfBounds_true in Hx. unfold stepPhysics.
      rewrite (stepPhysicsLogged_halted _ _ Hx). reflexivity. }
    rewrite Hh. split; [apply pushTrail_append|].
    split; [apply pushTrail_append|].
    split; [apply pushTrail_lastn | apply pushTrail_last]. }
  split; [exact U|].
  exists edgeParams, edgeState.
  assert (Hb : inBounds (position edgeState)).
  { unfold inBounds, edgeState, BOUNDS_LIMIT. cbn [position x y z].
    rewrite Rabs_R0, Rabs_pos_eq by lra. lra. }
  destruct (U edgeParams edgeState Hb)
    as (st' & E & Hh & Hin & Hnext & Happ & _).
  exists st'. rewrite edge_step in E. injection E as <-.
  assert (Hx : exceedsBounds (Vector3.mk 321 0 0)).
  { left. unfold BOUNDS_LIMIT. cbn [x]. rewrite Rabs_pos_eq; lra. }
  split; [exact Hb|]. split; [apply edge_step|].
  split; [exact Hx|]. split; [exact Hin|].
  split; [apply Hnext; exact Hx | reflexivity].
Qed.

Lemma bounds_checked_before_step_witness :
  inBounds (position edgeState)
  /\ exists st',
       stepPhysics edgeParams edgeState = (Advanced, st')
       /\ In (position st') (history st')
       /\ position st' = Vector3.mk 321 0 0
       /\ history st' = [Vector3.mk 320 0 0; Vector3.mk 321 0 0].
Proof.
  assert (Hb : inBounds (position edgeState)).
  { unfold inBounds, edgeState, BOUNDS_LIMIT. cbn [position x y z].
    rewrite Rabs_R0, Rabs_pos_eq by lra. lra. }
  split; [exact Hb|].
  destruct (proj1 bounds_checked_before_step edgeParams edgeState Hb)
    as (st' & E & _ & Hin & _ & Happ & _).
  exists st'. split; [exact E|]. split; [exact Hin|].
  assert (Hl : (length (history edgeState) < TRAIL_LENGTH)%nat).
  { unfold edgeState, TRAIL_LENGTH. cbn [history length]. lia. }
  specialize (Happ Hl).
  rewrite edge_step in E. injection E as <-.
  split; reflexivity.
Defined.

(** ** Speed under a perpendicular field *)

Lemma half_dec : 0.5 = / 2.
Proof. lra. Qed.

(** The velocity update in closed form.  With A u = h (u x B) and
    h = (q/m) dt the scheme computes
    v' = v + A v + A^2 v / 2 + A^3 v / 6 + A^4 v / 24, and
    A^2 v = h^2 (v.B) B - w v with w = h^2 |B|^2. *)
Lemma step_velocity (params : SimulationParams) (st st' : SimulationState) :
  stepPhysics params st = (Advanced, st') ->
  let h := charge params / mass params * DT in
  let B := bField params in
  let v := velocity st in
  let w := h ^ 2 * norm2 B in
  let d := dot v B in
  velocity st' =
    vadd (vadd (vscale (1 - w / 2 + w ^ 2 / 24) v)
               (vscale ((1 - w / 6) * h) (cross v B)))
         (vscale (d * h ^ 2 * (/ 2 - w / 24)) B).
Proof.
  unfold stepPhysics, stepPhysicsLogged.
  destruct (outOfBounds (position st)); [discriminate|].
  intros E. injection E as <-.
  cbv beta iota zeta delta
    [bind call ret fst snd app accel vadd vdiv vscale cross dot norm2
     SimulationState.velocity x y z].
  generalize (charge params / mass params) as qm; intros qm.
  destruct (velocity st) as [v1 v2 v3].
  destruct (bField params) as [b1 b2 b3].
  rewrite half_dec. generalize DT as dt; intros dt.
  apply vec_eq; field.
Qed.

(** One step on a velocity perpendicular to the field. *)
Lemma step_perpendicular (params : SimulationParams)
  (st st' : SimulationState) :
  stepPhysics params st = (Advanced, st') ->
  dot (velocity st) (bField params) = 0 ->
  dot (velocity st') (bField params) = 0
  /\ norm2 (velocity st') = norm2 (velocity st) * decay (turn2 params).
Proof.
  intros E Hd. pose proof (step_velocity params st st' E) as Hv.
  cbv zeta in Hv. rewrite Hv. clear Hv E. unfold turn2, decay.
  revert Hd.
  generalize (charge params / mass params * DT) as h; intros h.
  destruct (velocity st) as [v1 v2 v3].
  destruct (bField params) as [b1 b2 b3].
  cbv beta iota zeta delta [vadd vscale cross dot norm2 x y z].
  intros Hd. rewrite Hd. split.
  - transitivity
      ((1 - h ^ 2 * (b1 * b1 + b2 * b2 + b3 * b3) / 2
        + (h ^ 2 * (b1 * b1 + b2 * b2 + b3 * b3)) ^ 2 / 24)
       * (v1 * b1 + v2 * b2 + v3 * b3)); [field | rewrite Hd; ring].
  - transitivity
      ((v1 * v1 + v2 * v2 + v3 * v3)
       * (1 - (h ^ 2 * (b1 * b1 + b2 * b2 + b3 * b3)) ^ 3 / 72
          + (h ^ 2 * (b1 * b1 + b2 * b2 + b3 * b3)) ^ 4 / 576)
       - ((1 - h ^ 2 * (b1 * b1 + b2 * b2 + b3 * b3) / 6) * h) ^ 2
         * (v1 * b1 + v2 * b2 + v3 * b3) ^ 2); [field | rewrite Hd; ring].
Qed.

(** decay w = 1 - w^3 (8 - w) / 576 lies in [0, 1] for 0 <= w <= 8. *)
Lemma decay_range (w : R) :
  0 <= w <= 8 -> 0 <= decay w <= 1 /\ 1 - w ^ 3 / 72 <= decay w.
Proof.
  intros [H0 H8]. unfold decay.
  assert (H3 : 0 <= w ^ 3) by (apply pow_le; exact H0).
  assert (H4 : 0 <= w ^ 4) by (apply pow_le; exact H0).
  assert (E : w ^ 4 = w ^ 3 * w) by ring.
  assert (H48 : w ^ 4 <= 8 * w ^ 3) by nra.
  repeat split; try lra.
  assert (w ^ 3 * (8 - w) <= 432).
  { assert (Q : 432 - w ^ 3 * (8 - w)
                = (w - 6) ^ 2 * (w ^ 2 + 4 * w + 12)) by ring.
    assert (0 <= (w - 6) ^ 2 * (w ^ 2 + 4 * w + 12)).
    { apply Rmult_le_pos; [apply pow2_ge_0|].
      pose proof (pow2_ge_0 w). lra. }
    lra. }
  nra.
Qed.

Lemma norm2_nonneg (u : Vector3) : 0 <= norm2 u.
Proof.
  destruct u as [a b c]. unfold norm2, dot. cbn [x y z].
  pose proof (Rle_0_sqr a). pose proof (Rle_0_sqr b).
  pose proof (Rle_0_sqr c). unfold Rsqr in *. lra.
Qed.

Lemma turn2_nonneg (params : SimulationParams) : 0 <= turn2 params.
Proof.
  unfold turn2. apply Rmult_le_pos; [apply pow2_ge_0 | apply norm2_nonneg].
Qed.

Lemma norm2_zero (u : Vector3) : norm2 u = 0 -> u = origin.
Proof.
  destruct u as [a b c]. unfold norm2, dot, origin. cbn [x y z]. intros H.
  assert (a = 0 /\ b = 0 /\ c = 0) as (-> & -> & ->) by (repeat split; nra).
  reflexivity.
Qed.

Lemma norm2_pos (u : Vector3) : u <> origin -> 0 < norm2 u.
Proof.
  intros H. destruct (Rle_lt_or_eq_dec _ _ (norm2_nonneg u)) as [L|E];
    [exact L|].
  contradiction H. apply norm2_zero. symmetry. exact E.
Qed.

(** The factor against 1: below it strictly between w = 0 and w = 8, equal
    to it at both ends, above it beyond 8. *)
Lemma decay_sides (w : R) :
  (0 < w < 8 -> 0 <= decay w < 1)
  /\ (w = 0 \/ w = 8 -> decay w = 1)
  /\ (8 < w -> 1 < decay w).
Proof.
  assert (E : decay w = 1 - w ^ 3 * (8 - w) / 576) by (unfold decay; field).
  split; [|split].
  - intros [H0 H8].
    assert (H3 : 0 < w ^ 3) by (apply pow_lt; exact H0).
    split; [apply decay_range; lra|].
    rewrite E. assert (0 < w ^ 3 * (8 - w)) by nra. lra.
  - intros [->| ->]; unfold decay; lra.
  - intros H8.
    assert (H3 : 0 < w ^ 3) by (apply pow_lt; lra).
    rewrite E. assert (w ^ 3 * (8 - w) < 0) by nra. lra.
Qed.

Lemma pow_below_1 (D : R) (n : nat) :
  0 <= D < 1 -> (0 < n)%nat -> 0 <= D ^ n < 1.
Proof.
  intros HD Hn. destruct n as [|n]; [lia|]. clear Hn.
  induction n as [|n [I0 I1]]; [cbn [pow]; lra|].
  change (D ^ S (S n)) with (D * D ^ S n). split; nra.
Qed.

(** [n] advancing steps on a velocity perpendicular to the field. *)
Lemma steps_perpendicular (params : SimulationParams) :
  forall n st0 st,
    dot (velocity st0) (bField params) = 0 ->
    steps n params st0 = Some st ->
    dot (velocity st) (bField params) = 0
    /\ norm2 (velocity st)
       = norm2 (velocity st0) * decay (turn2 params) ^ n.
Proof.
  induction n as [|n IH]; intros st0 st Hd Hs.
  - injection Hs as <-. split; [exact Hd|]. cbn [pow]. ring.
  - cbn [steps] in Hs.
    destruct (stepPhysics params st0) as [[|] st1] eqn:E; [|discriminate].
    destruct (step_perpendicular _ _ _ E Hd) as [Hd1 Hn1].
    destruct (IH _ _ Hd1 Hs) as [Hdn Hnn].
    split; [exact Hdn|]. rewrite Hnn, Hn1. cbn [pow]. ring.
Qed.

(** Powers of a factor in [0, 1] that is at least 1 - e. *)
Lemma pow_decay_bounds (D e : R) (n : nat) :
  0 <= D <= 1 -> 1 - e <= D ->
  0 <= D ^ n <= 1 /\ 1 - INR n * e <= D ^ n.
Proof.
  intros HD He. induction n as [|n [[Hp0 Hp1] Hb]].
  - cbn [pow INR]. lra.
  - rewrite S_INR. cbn [pow]. repeat split; nra.
Qed.

Lemma norm_scaled (u w : Vector3) (c k : R) :
  0 <= k -> norm2 w = norm2 u * c -> k ^ 2 <= c -> k * norm u <= norm w.
Proof.
  intros Hk E Hc. unfold norm. rewrite E.
  rewrite <- (sqrt_pow2 k Hk) at 1.
  rewrite <- sqrt_mult_alt by apply pow2_ge_0.
  apply sqrt_le_1_alt. pose proof (norm2_nonneg u). nra.
Qed.

Lemma norm_shrunk (u w : Vector3) (c : R) :
  norm2 w = norm2 u * c -> c <= 1 -> norm w <= norm u.
Proof.
  intros E Hc. unfold norm. rewrite E. apply sqrt_le_1_alt.
  pose proof (norm2_nonneg u). nra.
Qed.

(** C7, amended. With the velocity perpendicular to the field, every
    advancing step keeps it perpendicular and multiplies |v|^2 by exactly
    D = 1 - w^3/72 + w^4/576 = 1 - w^3 (8 - w) / 576, where
    w = (0.05 q/m)^2 |B|^2.  So the speed is conserved only when w = 0 or
    w = 8; a non-zero velocity loses speed with every step when 0 < w < 8
    and gains speed with every step when w > 8.  For w <= 8 the speed never
    grows, and it stays within 1% of the initial speed over n steps as long
    as n w^3 <= 1.4328. *)
Theorem speed_decay (params : SimulationParams) (st0 : SimulationState)
  (n : nat) (st : SimulationState) :
  dot (velocity st0) (bField params) = 0 ->
  steps n params st0 = Some st ->
  let w := (0.05 * (charge params / mass params)) ^ 2
           * norm2 (bField params) in
  dot (velocity st) (bField params) = 0
  /\ norm2 (velocity st)
     = norm2 (velocity st0) * (1 - w ^ 3 / 72 + w ^ 4 / 576) ^ n
  /\ (w <= 8 -> norm (velocity st) <= norm (velocity st0))
  /\ (w <= 8 -> INR n * w ^ 3 <= 1.4328 ->
      0.99 * norm (velocity st0) <= norm (velocity st))
  /\ (w = 0 \/ w = 8 -> norm (velocity st) = norm (velocity st0))
  /\ (0 < w < 8 -> (0 < n)%nat -> velocity st0 <> origin ->
      norm (velocity st) < norm (velocity st0))
  /\ (8 < w -> (0 < n)%nat -> velocity st0 <> origin ->
      norm (velocity st0) < norm (velocity st)).
Proof.
  intros Hd Hs w.
  assert (Ew : w = turn2 params) by (unfold w, turn2, DT; ring).
  destruct (steps_perpendicular params n st0 st Hd Hs) as [Hdn Hn].
  fold (decay w). rewrite Ew. split; [exact Hdn|]. split; [exact Hn|].
  pose proof (turn2_nonneg params) as H0.
  destruct (decay_sides (turn2 params)) as (Hlt & Heq & Hgt).
  split; [|split; [|split; [|split]]].
  - intros H8. destruct (decay_range _ (conj H0 H8)) as [HD He].
    destruct (pow_decay_bounds _ _ n HD He) as [[_ H1] _].
    exact (norm_shrunk _ _ _ Hn H1).
  - intros H8 Hn3. destruct (decay_range _ (conj H0 H8)) as [HD He].
    destruct (pow_decay_bounds _ _ n HD He) as [_ Hb].
    apply (norm_scaled _ _ _ 0.99 ltac:(lra) Hn).
    replace (0.99 ^ 2) with 0.9801 by (cbn [pow]; lra).
    unfold Rdiv in Hb. lra.
  - intros Hw. unfold norm. rewrite Hn, (Heq Hw), pow1. f_equal. ring.
  - intros Hw Hpos Hv. pose proof (norm2_pos _ Hv) as Hv2.
    destruct (pow_below_1 _ n (Hlt Hw) Hpos) as [P0 P1].
    unfold norm. rewrite Hn. apply sqrt_lt_1_alt. split; nra.
  - intros Hw Hpos Hv. pose proof (norm2_pos _ Hv) as Hv2.
    pose proof (Rlt_pow_R1 _ n (Hgt Hw) Hpos) as P1.
    unfold norm. rewrite Hn. apply sqrt_lt_1_alt. split; nra.
Qed.

Lemma speed_decay_witness :
  dot (velocity (resetSimulation circleParams)) (bField circleParams) = 0
  /\ exists st,
       steps 1 circleParams (resetSimulation circleParams) = Some st
       /\ dot (velocity st) (bField circleParams) = 0
       /\ norm (velocity st) <= norm (velocity (resetSimulation circleParams))
       /\ 0.99 * norm (velocity (resetSimulation circleParams))
          <= norm (velocity st).
Proof.
  assert (Hd : dot (velocity (resetSimulation circleParams))
                   (bField circleParams) = 0).
  { unfold dot, resetSimulation, circleParams.
    cbn [velocity SimulationParams.velocity bField x y z]. ring. }
  split; [exact Hd|].
  assert (Hs : steps 1 circleParams (resetSimulation circleParams)
               = Some (snd (stepPhysics circleParams
                                        (resetSimulation circleParams)))).
  { cbn [steps]. rewrite stepPhysics_advanced; [reflexivity|].
    apply outOfBounds_false, inBounds_origin. }
  eexists. split; [exact Hs|].
  destruct (speed_decay circleParams (resetSimulation circleParams) 1 _ Hd Hs)
    as (Hp & _ & Hle & Hge & _).
  assert (Hw : (0.05 * (charge circleParams / mass circleParams)) ^ 2
               * norm2 (bField circleParams) = 0.0025).
  { unfold norm2, dot, circleParams. cbn [charge mass bField x y z]. lra. }
  rewrite Hw in Hle, Hge.
  split; [exact Hp|]. split; [apply Hle; lra|].
  apply Hge; [lra|]. cbn [INR]. lra.
Defined.

(** C7, as stated, fails.  Mass 0.5, charge 5, v = (1, 0, 0) perpendicular
    to B = (0, 0, 4): one step from the origin turns the velocity into
    (-1/3, -2/3, 0), of speed sqrt(5)/3 < 0.99. *)
Lemma speed_not_conserved :
  dot (velocity (resetSimulation stiffParams)) (bField stiffParams) = 0
  /\ norm (velocity (resetSimulation stiffParams)) = 1
  /\ norm (bField stiffParams) = 4
  /\ exists st',
       stepPhysics stiffParams (resetSimulation stiffParams) = (Advanced, st')
       /\ velocity st' = Vector3.mk (- (1 / 3)) (- (2 / 3)) 0
       /\ norm (velocity st')
          < 0.99 * norm (velocity (resetSimulation stiffParams)).
Proof.
  assert (N1 : norm (velocity (resetSimulation stiffParams)) = 1).
  { unfold norm, norm2, dot, resetSimulation, stiffParams.
    cbn [velocity SimulationParams.velocity x y z].
    replace (1 * 1 + 0 * 0 + 0 * 0) with 1 by ring. apply sqrt_1. }
  split.
  { unfold dot, resetSimulation, stiffParams.
    cbn [velocity SimulationParams.velocity bField x y z]. ring. }
  split; [exact N1|]. split.
  { unfold norm, norm2, dot, stiffParams. cbn [bField x y z].
    replace (0 * 0 + 0 * 0 + 4 * 4) with (4 * 4) by ring.
    apply sqrt_square. lra. }
  assert (E : stepPhysics stiffParams (resetSimulation stiffParams)
              = (Advanced,
                 snd (stepPhysics stiffParams (resetSimulation stiffParams)))).
  { apply stepPhysics_advanced, outOfBounds_false, inBounds_origin. }
  eexists. split; [exact E|].
  pose proof (step_velocity _ _ _ E) as Hv. cbv zeta in Hv.
  assert (Hv' : velocity (snd (stepPhysics stiffParams
                                           (resetSimulation stiffParams)))
                = Vector3.mk (- (1 / 3)) (- (2 / 3)) 0).
  { rewrite Hv. unfold vadd, vscale, cross, norm2, dot, resetSimulation,
      stiffParams, DT.
    cbn [velocity SimulationParams.velocity bField charge mass x y z].
    apply vec_eq; lra. }
  split; [exact Hv'|]. rewrite Hv', N1.
  unfold norm, norm2, dot. cbn [x y z].
  replace (0.99 * 1) with (sqrt (0.99 * 0.99))
    by (rewrite sqrt_square; lra).
  apply sqrt_lt_1_alt. lra.
Qed.

(** ** Projection *)

Lemma projected_eq (a b c a' b' c' : R) :
  a = a' -> b = b' -> c = c' -> Projected.mk a b c = Projected.mk a' b' c'.
Proof. intros; subst; reflexivity. Qed.

(** The yaw and pitch maps are rotations: they keep lengths. *)
Lemma rotateYaw_norm2 (a : R) (p : Vector3) :
  norm2 (rotateYaw a p) = norm2 p.
Proof.
  pose proof (sin2_cos2 a) as H. unfold Rsqr in H.
  unfold norm2, dot, rotateYaw. cbn [x y z].
  transitivity ((x p * x p + y p * y p) * (sin a * sin a + cos a * cos a)
                + z p * z p); [ring | rewrite H; ring].
Qed.

Lemma rotatePitch_norm2 (a : R) (p : Vector3) :
  norm2 (rotatePitch a p) = norm2 p.
Proof.
  pose proof (sin2_cos2 a) as H. unfold Rsqr in H.
  unfold norm2, dot, rotatePitch. cbn [x y z].
  transitivity (x p * x p
                + (y p * y p + z p * z p) * (sin a * sin a + cos a * cos a));
    [ring | rewrite H; ring].
Qed.

(** C5. [project] rotates the point by the yaw and then by the pitch, takes
    depth = 400 + viewY and scale = (600 / max(1, depth)) zoom, and returns
    screenX = viewX scale + width/2 - 100 and
    screenY = - viewZ scale + height/2; the divisor max(1, depth) is never
    below 1. *)
Theorem project_perspective (camera : CameraState) (p : Vector3)
  (width height : R) :
  let view := rotatePitch (pitch camera) (rotateYaw (yaw camera) p) in
  let depth := 400 + y view in
  let scale := 600 / Rmax 1 depth * zoom camera in
  project camera p width height
  = Projected.mk (x view * scale + width / 2 - 100)
                 (- z view * scale + height / 2)
                 scale
  /\ norm2 view = norm2 p
  /\ 1 <= Rmax 1 depth.
Proof.
  intros view depth scale. split; [|split; [|apply Rmax_l]].
  - subst view depth scale. unfold project, rotatePitch, rotateYaw.
    cbn [x y z]. apply projected_eq; ring.
  - subst view. rewrite rotatePitch_norm2. apply rotateYaw_norm2.
Qed.

(** C9. With the point, pitch, yaw and viewport fixed, the output
    coordinates of [project], taken as offsets from the viewport centre
    (width/2, height/2), are the functions viewX k zoom - 100 and
    - viewZ k zoom of the zoom, where (viewX, viewY, viewZ) is the point
    rotated by the yaw and the pitch and k = 600 / max(1, 400 + viewY) is
    positive.  So each offset is a monotone function of the zoom: the
    horizontal one grows strictly with the zoom when viewX > 0 and falls
    strictly when viewX < 0, the vertical one falls strictly when viewZ > 0
    and grows strictly when viewZ < 0; an offset is constant only for a
    point whose view coordinate is 0.  Taken from the centre of the
    projection (width/2 - 100, height/2), the offsets are proportional to
    the zoom. *)
Theorem project_zoom_monotone (p : Vector3) (pitch yaw width height : R) :
  let X := fun zoom =>
    Projected.x (project (CameraState.mk pitch yaw zoom) p width height) in
  let Y := fun zoom =>
    Projected.y (project (CameraState.mk pitch yaw zoom) p width height) in
  let view := rotatePitch pitch (rotateYaw yaw p) in
  let k := 600 / Rmax 1 (400 + y view) in
  monotone (fun zoom => X zoom - width / 2)
  /\ monotone (fun zoom => Y zoom - height / 2)
  /\ (forall zoom,
        X zoom - (width / 2 - 100) = zoom * (X 1 - (width / 2 - 100))
        /\ Y zoom - height / 2 = zoom * (Y 1 - height / 2))
  /\ 0 < k
  /\ (forall zoom,
        X zoom - width / 2 = x view * k * zoom - 100
        /\ Y zoom - height / 2 = - z view * k * zoom)
  /\ (forall a b,
        a < b ->
        (0 < x view -> X a - width / 2 < X b - width / 2)
        /\ (x view < 0 -> X b - width / 2 < X a - width / 2)
        /\ (x view = 0 -> X a - width / 2 = X b - width / 2)
        /\ (0 < z view -> Y b - height / 2 < Y a - height / 2)
        /\ (z view < 0 -> Y a - height / 2 < Y b - height / 2)
        /\ (z view = 0 -> Y a - height / 2 = Y b - height / 2)).
Proof.
  intros X Y view k. subst X Y view k.
  unfold monotone, project, rotatePitch, rotateYaw.
  cbn [Projected.x Projected.y CameraState.pitch CameraState.yaw
       CameraState.zoom x y z].
  set (x1 := x p * cos yaw - y p * sin yaw).
  set (y1 := x p * sin yaw + y p * cos yaw).
  set (z2 := y1 * sin pitch + z p * cos pitch).
  set (persp := 600 / Rmax 1 (400 + (y1 * cos pitch - z p * sin pitch))).
  assert (Hk : 0 < persp).
  { subst persp. apply Rdiv_lt_0_compat; [lra|].
    eapply Rlt_le_trans; [|apply Rmax_l]. lra. }
  split; [|split; [|split; [|split]]].
  - destruct (Rle_dec 0 (x1 * persp)) as [H|H].
    + left. intros a b Hab. nra.
    + right. intros a b Hab. nra.
  - destruct (Rle_dec 0 (- z2 * persp)) as [H|H].
    + left. intros a b Hab. nra.
    + right. intros a b Hab. nra.
  - intros zoom. split; ring.
  - exact Hk.
  - split.
    + intros zoom. split; field.
    + intros a b Hab. repeat split; intros Hv.
      * assert (0 < x1 * persp) by (apply Rmult_lt_0_compat; lra). nra.
      * assert (0 < - x1 * persp) by (apply Rmult_lt_0_compat; lra). nra.
      * rewrite Hv. ring.
      * assert (0 < z2 * persp) by (apply Rmult_lt_0_compat; lra). nra.
      * assert (0 < - z2 * persp) by (apply Rmult_lt_0_compat; lra). nra.
      * rewrite Hv. ring.
Qed.

(** ** Label clipping *)

Lemma raise_code (t a : R) : (if gtb t a then t else a) = Rmax a t.
Proof.
  unfold gtb, Rmax. destruct (Rgt_dec t a), (Rle_dec a t); lra.
Qed.

Lemma lower_code (t b : R) : (if ltb t b then t else b) = Rmin b t.
Proof.
  unfold ltb, Rmin. destruct (Rlt_dec t b), (Rle_dec b t); lra.
Qed.

Lemma raiseEntry_ge (e : R * R) (a : R) : a <= raiseEntry a e.
Proof. unfold raiseEntry. destruct (ltb (fst e) 0); [apply Rmax_l | lra]. Qed.

Lemma lowerExit_le (e : R * R) (b : R) : lowerExit b e <= b.
Proof. unfold lowerExit. destruct (ltb 0 (fst e)); [apply Rmin_l | lra]. Qed.

Lemma fold_raise_ge (edges : list (R * R)) :
  forall a, a <= fold_left raiseEntry edges a.
Proof.
  induction edges as [|e rest IH]; intros a; cbn [fold_left]; [lra|].
  eapply Rle_trans; [apply (raiseEntry_ge e) | apply IH].
Qed.

Lemma fold_lower_le (edges : list (R * R)) :
  forall b, fold_left lowerExit edges b <= b.
Proof.
  induction edges as [|e rest IH]; intros b; cbn [fold_left]; [lra|].
  eapply Rle_trans; [apply IH | apply (lowerExit_le e)].
Qed.

(** The loop against the specification's parameters. *)
Lemma clipEdges_spec (edges : list (R * R)) :
  forall a b, a <= b ->
    match clipEdges edges a b with
    | None =>
        lbParallelOutside edges = true
        \/ fold_left raiseEntry edges a > fold_left lowerExit edges b
    | Some (t0, t1) =>
        lbParallelOutside edges = false
        /\ t0 = fold_left raiseEntry edges a
        /\ t1 = fold_left lowerExit edges b
        /\ t0 <= t1
    end.
Proof.
  induction edges as [|[p q] rest IH]; intros a b Hab.
  - cbn. auto.
  - cbn [clipEdges fold_left lbParallelOutside existsb fst snd].
    fold (lbParallelOutside rest).
    unfold raiseEntry at 2, lowerExit at 2.
    unfold raiseEntry at 3, lowerExit at 3.
    cbn [fst snd].
    destruct (eqb p 0) eqn:Ep.
    + apply eqb_true in Ep. subst p. decide_cmp.
      destruct (ltb q 0) eqn:Eq; cbn [andb orb].
      * left. reflexivity.
      * apply IH, Hab.
    + apply eqb_false in Ep. cbn [andb orb].
      destruct (ltb p 0) eqn:Lp.
      * apply ltb_true in Lp. decide_cmp.
        destruct (gtb (q / p) b) eqn:G.
        -- apply gtb_true in G. right.
           pose proof (fold_raise_ge rest (Rmax a (q / p))).
           pose proof (fold_lower_le rest b).
           pose proof (Rmax_r a (q / p)). lra.
        -- apply gtb_false in G. rewrite raise_code.
           apply IH. apply Rmax_lub; assumption.
      * apply ltb_false in Lp. decide_cmp.
        destruct (ltb (q / p) a) eqn:G.
        -- apply ltb_true in G. right.
           pose proof (fold_raise_ge rest a).
           pose proof (fold_lower_le rest (Rmin b (q / p))).
           pose proof (Rmin_r b (q / p)). lra.
        -- apply ltb_false in G. rewrite lower_code.
           apply IH. apply Rmin_glb; assumption.
Qed.

(** One edge constraint p t <= q against the pair of updated bounds. *)
Lemma edge_constraint (p q a b t : R) :
  (a <= t <= b /\ p * t <= q)
  <-> ((eqb p 0 && ltb q 0 = false)
       /\ raiseEntry a (p, q) <= t <= lowerExit b (p, q)).
Proof.
  unfold raiseEntry, lowerExit. cbn [fst snd].
  destruct (Rtotal_order p 0) as [Hp|[Hp|Hp]].
  - repeat decide_cmp. cbn [andb].
    assert (Hc : q / p * p = q) by (field; lra).
    set (c := q / p) in *. clearbody c.
    split.
    + intros [[Ha Hb] Ht]. split; [reflexivity|]. split; [|exact Hb].
      apply Rmax_lub; [exact Ha | nra].
    + intros [_ [Hm Hb]].
      pose proof (Rmax_l a c). pose proof (Rmax_r a c).
      split; [lra | nra].
  - subst p. repeat decide_cmp. cbn [andb]. rewrite Rmult_0_l.
    split.
    + intros [Hab Hq]. split; [apply ltb_false; exact Hq | exact Hab].
    + intros [Hq Hab]. split; [exact Hab | apply ltb_false; exact Hq].
  - repeat decide_cmp. cbn [andb].
    assert (Hc : q / p * p = q) by (field; lra).
    set (c := q / p) in *. clearbody c.
    split.
    + intros [[Ha Hb] Ht]. split; [reflexivity|]. split; [exact Ha|].
      apply Rmin_glb; [exact Hb | nra].
    + intros [_ [Ha Hm]].
      pose proof (Rmin_l b c). pose proof (Rmin_r b c).
      split; [lra | nra].
Qed.

(** The parameters of the points of the segment that satisfy every edge
    constraint are exactly the interval from entry to exit. *)
Lemma lb_interval (edges : list (R * R)) :
  forall a b t,
    (a <= t <= b /\ Forall (fun e => fst e * t <= snd e) edges)
    <-> (lbParallelOutside edges = false
         /\ fold_left raiseEntry edges a <= t <= fold_left lowerExit edges b).
Proof.
  induction edges as [|[p q] rest IH]; intros a b t.
  - cbn. split; [intros [H _]; auto | intros [_ H]; auto].
  - cbn [fold_left lbParallelOutside existsb fst snd].
    fold (lbParallelOutside rest). rewrite orb_false_iff.
    rewrite Forall_cons_iff. cbn [fst snd].
    specialize (IH (raiseEntry a (p, q)) (lowerExit b (p, q)) t).
    pose proof (edge_constraint p q a b t) as He.
    tauto.
Qed.

Lemma labelEdges_inside (p0 p1 : Projected.t) (width height t : R) :
  Forall (fun e => fst e * t <= snd e) (labelEdges p0 p1 width height)
  <-> insideInset width height (segmentPoint p0 p1 t).
Proof.
  unfold labelEdges, insideInset, segmentPoint. cbn [Point2.x Point2.y].
  rewrite !Forall_cons_iff. cbn [fst snd].
  split.
  - intros (H1 & H2 & H3 & H4 & _). lra.
  - intros [[H1 H2] [H3 H4]]. repeat split; try lra. constructor.
Qed.

(** C8. [getLabelPosition] returns none exactly when the parameter interval
    left by the four edges of the inset rectangle is empty (t0 > t1) or an
    edge parallel to the line has the line on its outer side; otherwise it
    returns p0 + t1 (p1 - p0).  The interval [t0, t1] holds the parameters
    of the points of the projected segment that lie within the rectangle
    inset by 25px, so the returned point is the one of them nearest to the
    axis tip. *)
Theorem label_clipping (camera : CameraState) (origin axisTip : Vector3)
  (width height : R) :
  let p0 := project camera origin width height in
  let p1 := project camera axisTip width height in
  let edges := labelEdges p0 p1 width height in
  let t0 := lbEntry edges in
  let t1 := lbExit edges in
  (getLabelPosition camera origin axisTip width height = None
   <-> t0 > t1 \/ lbParallelOutside edges = true)
  /\ (getLabelPosition camera origin axisTip width height <> None ->
      getLabelPosition camera origin axisTip width height
      = Some (segmentPoint p0 p1 t1))
  /\ (forall t,
        0 <= t <= 1 /\ insideInset width height (segmentPoint p0 p1 t)
        <-> lbParallelOutside edges = false /\ t0 <= t <= t1).
Proof.
  intros p0 p1 edges t0 t1.
  assert (H01 : 0 <= 1) by lra.
  pose proof (clipEdges_spec edges 0 1 H01) as Hc.
  unfold getLabelPosition. fold p0 p1. fold edges.
  fold (lbEntry edges) in Hc. fold (lbExit edges) in Hc. fold t0 t1 in Hc.
  split; [|split].
  - destruct (clipEdges edges 0 1) as [[a b]|].
    + destruct Hc as (Hp & -> & -> & Hle).
      decide_cmp.
      split; [discriminate|]. intros [H|H]; [lra | congruence].
    + split; [intros _; tauto | reflexivity].
  - destruct (clipEdges edges 0 1) as [[a b]|].
    + destruct Hc as (Hp & -> & -> & Hle).
      decide_cmp. intros _. reflexivity.
    + intros H. contradiction H. reflexivity.
  - intros t. rewrite <- (labelEdges_inside p0 p1 width height t).
    apply lb_interval.
Qed.

(** ** A worked label *)

Lemma project_front (p : Vector3) (width height : R) :
  0 <= y p ->
  project frontCamera p width height
  = Projected.mk (x p * (600 / (400 + y p)) + (width / 2 - 100))
                 (- z p * (600 / (400 + y p)) + height / 2)
                 (600 / (400 + y p)).
Proof.
  intros Hy. unfold project, frontCamera. cbn [pitch yaw zoom].
  rewrite cos_0, sin_0.
  replace (Rmax 1 (400 + ((x p * 0 + y p * 1) * 1 - z p * 0)))
    with (400 + y p).
  - apply projected_eq; field; lra.
  - rewrite Rmax_right; lra.
Qed.

(** The label of the x axis in an 800 x 600 viewport: the projected axis
    runs from (300, 300) to the right and leaves the inset rectangle at
    x = 775. *)
Lemma x_label_example :
  getLabelPosition frontCamera origin xAxisTip 800 600
  = Some (Point2.mk 775 300).
Proof.
  unfold getLabelPosition.
  replace (project frontCamera origin 800 600)
    with (Projected.mk 300 300 1.5).
  2:{ rewrite project_front by (cbn; lra). cbn [origin x y z].
      apply projected_eq; lra. }
  replace (project frontCamera xAxisTip 800 600)
    with (Projected.mk 150300 300 1.5).
  2:{ rewrite project_front by (cbn; lra). unfold xAxisTip, AXIS_DRAW_EXTENT.
      cbn [x y z]. apply projected_eq; lra. }
  replace (labelEdges (Projected.mk 300 300 1.5) (Projected.mk 150300 300 1.5)
                      800 600)
    with [(-150000, 275); (150000, 475); (0, 275); (0, 275)].
  2:{ unfold labelEdges. cbn [Projected.x Projected.y].
      repeat (f_equal; try lra). }
  cbn [clipEdges Projected.x Projected.y]. repeat decide_cmp.
  f_equal. f_equal; lra.
Qed.

Lemma label_clipping_witness :
  getLabelPosition frontCamera origin xAxisTip 800 600
  = Some (Point2.mk 775 300)
  /\ ~ (lbEntry (labelEdges (project frontCamera origin 800 600)
                            (project frontCamera xAxisTip 800 600) 800 600)
        > lbExit (labelEdges (project frontCamera origin 800 600)
                             (project frontCamera xAxisTip 800 600) 800 600)
        \/ lbParallelOutside
             (labelEdges (project frontCamera origin 800 600)
                         (project frontCamera xAxisTip 800 600) 800 600)
           = true).
Proof.
  split; [exact x_label_example|].
  pose proof (label_clipping frontCamera origin xAxisTip 800 600) as L.
  cbv zeta in L. destruct L as (L & _ & _).
  intros H. apply L in H. rewrite x_label_example in H. discriminate.
Defined.

(** * Further properties of the code *)

(** ** The integrator along and across the field *)

(** The position update in closed form. *)
Lemma step_position (params : SimulationParams) (st st' : SimulationState) :
  stepPhysics params st = (Advanced, st') ->
  let h := charge params / mass params * DT in
  let B := bField params in
  let v := velocity st in
  let w := h ^ 2 * norm2 B in
  position st' =
    vadd (position st)
      (vscale DT
         (vadd (vadd (vscale (1 - w / 6) v)
                     (vscale ((/ 2 - w / 24) * h) (cross v B)))
               (vscale (dot v B * h ^ 2 / 6) B))).
Proof.
  unfold stepPhysics, stepPhysicsLogged.
  destruct (outOfBounds (position st)); [discriminate|].
  intros E. injection E as <-.
  cbv beta iota zeta delta
    [bind call ret fst snd app accel vadd vdiv vscale cross dot norm2
     SimulationState.position x y z].
  generalize (charge params / mass params) as qm; intros qm.
  destruct (velocity st) as [v1 v2 v3].
  destruct (position st) as [r1 r2 r3].
  destruct (bField params) as [b1 b2 b3].
  rewrite half_dec. generalize DT as dt; intros dt.
  apply vec_eq; field.
Qed.

Lemma step_along_field (params : SimulationParams)
  (st st' : SimulationState) :
  stepPhysics params st = (Advanced, st') ->
  dot (velocity st') (bField params) = dot (velocity st) (bField params)
  /\ dot (position st') (bField params)
     = dot (position st) (bField params)
       + DT * dot (velocity st) (bField params).
Proof.
  intros E. pose proof (step_velocity _ _ _ E) as Hv.
  pose proof (step_position _ _ _ E) as Hr. cbv zeta in Hv, Hr.
  rewrite Hv, Hr. clear Hv Hr E.
  generalize (charge params / mass params * DT) as h; intros h.
  generalize DT as dt; intros dt.
  destruct (velocity st) as [v1 v2 v3].
  destruct (position st) as [r1 r2 r3].
  destruct (bField params) as [b1 b2 b3].
  cbv beta iota zeta delta [vadd vscale cross dot norm2 x y z].
  split; field.
Qed.

(** The change of |v|^2 in one step, for any direction of v. *)
Lemma step_speed (params : SimulationParams) (st st' : SimulationState) :
  stepPhysics params st = (Advanced, st') ->
  let w := turn2 params in
  norm2 (velocity st')
  = norm2 (velocity st)
    - w ^ 2 * (8 - w) / 576
      * norm2 (vscale DT (accel params (velocity st))).
Proof.
  intros E. pose proof (step_velocity _ _ _ E) as Hv. cbv zeta in Hv.
  rewrite Hv. clear Hv E. unfold turn2, accel.
  generalize (charge params / mass params) as qm; intros qm.
  generalize DT as dt; intros dt.
  destruct (velocity st) as [v1 v2 v3].
  destruct (bField params) as [b1 b2 b3].
  cbv beta iota zeta delta [vadd vscale cross dot norm2 x y z].
  field.
Qed.

Lemma steps_along_field (params : SimulationParams) (n : nat) :
  forall st0 st,
    steps n params st0 = Some st ->
    dot (velocity st) (bField params) = dot (velocity st0) (bField params)
    /\ dot (position st) (bField params)
       = dot (position st0) (bField params)
         + INR n * DT * dot (velocity st0) (bField params).
Proof.
  induction n as [|n IH]; intros st0 st Hs.
  - injection Hs as <-. cbn [INR]. split; [reflexivity | ring].
  - cbn [steps] in Hs.
    destruct (stepPhysics params st0) as [[|] st1] eqn:E; [|discriminate].
    destruct (step_along_field _ _ _ E) as [Hv Hr].
    destruct (IH _ _ Hs) as [Hvn Hrn].
    rewrite Hvn, Hrn, Hv, Hr, S_INR. split; [reflexivity | ring].
Qed.

(** One advancing step from the origin. *)
Lemma first_step (params : SimulationParams) :
  steps 1 params (resetSimulation params)
  = Some (snd (stepPhysics params (resetSimulation params)))
  /\ stepPhysics params (resetSimulation params)
     = (Advanced, snd (stepPhysics params (resetSimulation params))).
Proof.
  assert (E : stepPhysics params (resetSimulation params)
              = (Advanced,
                 snd (stepPhysics params (resetSimulation params)))).
  { apply stepPhysics_advanced, outOfBounds_false, inBounds_origin. }
  split; [|exact E]. cbn [steps]. rewrite E. reflexivity.
Qed.

(** X1. The Lorentz acceleration is perpendicular to the velocity and to
    the field, and the scheme keeps the motion along the field uniform:
    over any [n] advancing steps the component of the velocity along B is
    unchanged, and the component of the position along B grows by exactly
    n dt (v0 . B), whatever the charge, the mass and the field strength. *)
Theorem drift_along_field (params : SimulationParams) (n : nat)
  (st0 st : SimulationState) :
  steps n params st0 = Some st ->
  (forall u, dot (accel params u) u = 0
             /\ dot (accel params u) (bField params) = 0)
  /\ dot (velocity st) (bField params) = dot (velocity st0) (bField params)
  /\ dot (position st) (bField params)
     = dot (position st0) (bField params)
       + INR n * 0.05 * dot (velocity st0) (bField params).
Proof.
  intros Hs. split.
  - intros u. unfold accel, dot. cbn [x y z]. split; ring.
  - exact (steps_along_field params n st0 st Hs).
Qed.

Lemma drift_along_field_witness :
  exists st,
    steps 1 initialParams (resetSimulation initialParams) = Some st
    /\ dot (velocity st) (bField initialParams) = 4
    /\ dot (position st) (bField initialParams) = 0.2.
Proof.
  destruct (first_step initialParams) as [Hs _].
  eexists. split; [exact Hs|].
  destruct (drift_along_field initialParams 1 _ _ Hs) as (_ & Hv & Hr).
  rewrite Hv, Hr. unfold dot, resetSimulation, initialParams.
  cbn [position velocity SimulationParams.velocity bField x y z INR].
  split; lra.
Defined.

(** ** Stability of the speed *)

Lemma kick_nonneg (params : SimulationParams) (st : SimulationState) :
  0 <= norm2 (vscale DT (accel params (velocity st))).
Proof. apply norm2_nonneg. Qed.

Lemma kick_pos (params : SimulationParams) (st : SimulationState) :
  accel params (velocity st) <> Vector3.mk 0 0 0 ->
  0 < norm2 (vscale DT (accel params (velocity st))).
Proof.
  intros Ha.
  destruct (Rle_lt_or_eq_dec _ _ (kick_nonneg params st)) as [H|H];
    [exact H|].
  exfalso. apply Ha. symmetry in H. apply norm2_zero in H.
  destruct (accel params (velocity st)) as [a b c].
  unfold vscale, origin, DT in H. cbn [x y z] in H.
  injection H as Hx Hy Hz. apply vec_eq; lra.
Qed.

Lemma steps_speed_bounded (params : SimulationParams) (n : nat) :
  turn2 params <= 8 ->
  forall st0 st,
    steps n params st0 = Some st ->
    norm2 (velocity st) <= norm2 (velocity st0).
Proof.
  intros H8. pose proof (turn2_nonneg params) as H0.
  induction n as [|n IH]; intros st0 st Hs.
  - injection Hs as <-. lra.
  - cbn [steps] in Hs.
    destruct (stepPhysics params st0) as [[|] st1] eqn:E; [|discriminate].
    pose proof (step_speed _ _ _ E) as H1. cbv zeta in H1.
    specialize (IH _ _ Hs).
    pose proof (kick_nonneg params st0) as Hk.
    assert (0 <= turn2 params ^ 2 * (8 - turn2 params) / 576
                 * norm2 (vscale DT (accel params (velocity st0)))).
    { apply Rmult_le_pos; [|exact Hk].
      pose proof (pow2_ge_0 (turn2 params)). nra. }
    lra.
Qed.

Lemma steps_speed_growing (params : SimulationParams) (n : nat) :
  8 <= turn2 params ->
  forall st0 st,
    steps n params st0 = Some st ->
    norm2 (velocity st0) <= norm2 (velocity st).
Proof.
  intros H8.
  induction n as [|n IH]; intros st0 st Hs.
  - injection Hs as <-. lra.
  - cbn [steps] in Hs.
    destruct (stepPhysics params st0) as [[|] st1] eqn:E; [|discriminate].
    pose proof (step_speed _ _ _ E) as H1. cbv zeta in H1.
    specialize (IH _ _ Hs).
    pose proof (kick_nonneg params st0) as Hk.
    assert (0 <= turn2 params ^ 2 * (turn2 params - 8) / 576
                 * norm2 (vscale DT (accel params (velocity st0)))).
    { apply Rmult_le_pos; [|exact Hk].
      pose proof (pow2_ge_0 (turn2 params)). nra. }
    lra.
Qed.

(** X2. With w = (dt q/m)^2 |B|^2, the scheme is stable exactly up to
    w = 8, for every direction of the velocity: over any number of
    advancing steps the speed never grows when w <= 8 and never shrinks
    when w >= 8, and when w > 8 it grows strictly as soon as a step is
    taken from a velocity on which the force does not vanish. *)
Theorem speed_stability (params : SimulationParams) (n : nat)
  (st0 st : SimulationState) :
  steps n params st0 = Some st ->
  let w := (0.05 * (charge params / mass params)) ^ 2
           * norm2 (bField params) in
  (w <= 8 -> norm (velocity st) <= norm (velocity st0))
  /\ (8 <= w -> norm (velocity st0) <= norm (velocity st))
  /\ (8 < w -> (0 < n)%nat ->
      accel params (velocity st0) <> Vector3.mk 0 0 0 ->
      norm (velocity st0) < norm (velocity st)).
Proof.
  intros Hs w.
  assert (Ew : w = turn2 params) by (unfold w, turn2, DT; ring).
  rewrite Ew. clear Ew w. split; [|split].
  - intros H8. unfold norm. apply sqrt_le_1_alt.
    exact (steps_speed_bounded params n H8 st0 st Hs).
  - intros H8. unfold norm. apply sqrt_le_1_alt.
    exact (steps_speed_growing params n H8 st0 st Hs).
  - intros H8 Hn Ha. destruct n as [|n]; [lia|]. cbn [steps] in Hs.
    destruct (stepPhysics params st0) as [[|] st1] eqn:E; [|discriminate].
    assert (H8' : 8 <= turn2 params) by lra.
    pose proof (steps_speed_growing params n H8' st1 st Hs) as Hg.
    pose proof (step_speed _ _ _ E) as H1. cbv zeta in H1.
    pose proof (kick_pos params st0 Ha) as Hk.
    assert (turn2 params ^ 2 * (8 - turn2 params) / 576
            * norm2 (vscale DT (accel params (velocity st0))) < 0).
    { assert (0 < turn2 params ^ 2) by (apply pow_lt; lra).
      assert (turn2 params ^ 2 * (8 - turn2 params) / 576 < 0) by nra.
      nra. }
    unfold norm. apply sqrt_lt_1_alt. split; [apply norm2_nonneg | lra].
Qed.

Lemma speed_stability_witness :
  exists st,
    steps 1 unstableParams (resetSimulation unstableParams) = Some st
    /\ norm (velocity (resetSimulation unstableParams)) < norm (velocity st).
Proof.
  destruct (first_step unstableParams) as [Hs _].
  eexists. split; [exact Hs|].
  destruct (speed_stability unstableParams 1 _ _ Hs) as (_ & _ & H).
  apply H.
  - unfold norm2, dot, unstableParams. cbn [charge mass bField x y z]. lra.
  - lia.
  - unfold accel, resetSimulation, unstableParams.
    cbn [velocity SimulationParams.velocity charge mass bField x y z].
    intros E. injection E as _ E _. lra.
Defined.

(** ** The clock *)

Lemma stepPhysics_time (params : SimulationParams)
  (st st' : SimulationState) :
  stepPhysics params st = (Advanced, st') -> time st' = time st + DT.
Proof.
  unfold stepPhysics, stepPhysicsLogged.
  destruct (outOfBounds (position st)); [discriminate|].
  cbv beta iota zeta delta [bind call ret fst snd app].
  intros E. injection E as <-. reflexivity.
Qed.

Lemma stepPhysics_halted (params : SimulationParams) (st : SimulationState) :
  outOfBounds (position st) = true -> stepPhysics params st = (Halted, st).
Proof.
  intros H. unfold stepPhysics. rewrite (stepPhysicsLogged_halted _ _ H).
  reflexivity.
Qed.

Lemma animate_time (params : SimulationParams) (w : bool * SimulationState) :
  time (snd w) <= time (snd (animate params w)).
Proof.
  destruct w as [[|] st]; cbn [animate snd]; [|lra].
  destruct (stepPhysics params st) as [[|] st'] eqn:E; cbn [snd].
  - rewrite (stepPhysics_time _ _ _ E). unfold DT. lra.
  - destruct (outOfBounds (position st)) eqn:Hb.
    + rewrite (stepPhysics_halted _ _ Hb) in E. injection E as <-. lra.
    + rewrite (stepPhysics_advanced _ _ Hb) in E. discriminate.
Qed.

Lemma frames_time (params : SimulationParams) (m : nat) :
  forall w, time (snd w) <= time (snd (frames m params w)).
Proof.
  induction m as [|m IH]; intros w; cbn [frames]; [lra|].
  eapply Rle_trans; [apply (animate_time params) | apply IH].
Qed.

Lemma steps_time (params : SimulationParams) (n : nat) :
  forall st0 st,
    steps n params st0 = Some st -> time st = time st0 + INR n * DT.
Proof.
  induction n as [|n IH]; intros st0 st Hs.
  - injection Hs as <-. cbn [INR]. lra.
  - cbn [steps] in Hs.
    destruct (stepPhysics params st0) as [[|] st1] eqn:E; [|discriminate].
    rewrite (IH _ _ Hs), (stepPhysics_time _ _ _ E), S_INR. lra.
Qed.

(** X3. The simulation clock counts the advancing steps: after [n] of
    them the time is time0 + n dt and the trail holds
    min(length0 + n, 3000) points; and whatever the frames do (advance,
    halt, or pause), the time never runs backwards. *)
Theorem clock_counts_steps (params : SimulationParams) (n : nat)
  (st0 st : SimulationState) :
  (length (history st0) <= TRAIL_LENGTH)%nat ->
  steps n params st0 = Some st ->
  time st = time st0 + INR n * 0.05
  /\ length (history st) = Nat.min (length (history st0) + n) TRAIL_LENGTH
  /\ (forall m w, time (snd w) <= time (snd (frames m params w))).
Proof.
  intros Hl Hs. split; [exact (steps_time params n st0 st Hs)|]. split.
  - rewrite (steps_history n params st0 st Hl Hs), lastn_length, length_app,
      produced_length. apply Nat.min_comm.
  - intros m w. apply frames_time.
Qed.

Lemma clock_counts_steps_witness :
  exists st,
    steps 1 initialParams (resetSimulation initialParams) = Some st
    /\ time st = 0.05
    /\ length (history st) = 1%nat.
Proof.
  destruct (first_step initialParams) as [Hs _].
  eexists. split; [exact Hs|].
  assert (Hl : (length (history (resetSimulation initialParams))
                <= TRAIL_LENGTH)%nat) by (cbn; lia).
  destruct (clock_counts_steps initialParams 1 _ _ Hl Hs) as (Ht & Hh & _).
  rewrite Ht, Hh. cbn [resetSimulation time history length INR].
  split; [lra | reflexivity].
Defined.

(** ** A particle out of bounds *)

Lemma onParamsChange_frozen (params : SimulationParams) (c : Refs) :
  position (stateRef (onParamsChange params c)) = position (stateRef c)
  /\ history (stateRef (onParamsChange params c)) = history (stateRef c)
  /\ time (stateRef (onParamsChange params c)) = time (stateRef c).
Proof.
  unfold onParamsChange. cbn [stateRef].
  destruct (neqb _ _ || neqb _ _ || neqb _ _); repeat split.
Qed.

Lemma applyOp_frozen (op : Op) (c : Refs) :
  exceedsBounds (position (stateRef c)) ->
  op <> Reset ->
  position (stateRef (applyOp op c)) = position (stateRef c)
  /\ history (stateRef (applyOp op c)) = history (stateRef c)
  /\ time (stateRef (applyOp op c)) = time (stateRef c).
Proof.
  intros Hx Hop. destruct op as [| |p]; [|contradiction Hop; reflexivity|].
  - cbn [applyOp stateRef]. apply outOfBounds_true in Hx.
    rewrite (stepPhysics_halted _ _ Hx). repeat split.
  - apply onParamsChange_frozen.
Qed.

Lemma restart_time (params : SimulationParams) :
  time (snd (stepPhysics params (resetSimulation params))) = 0.05.
Proof.
  destruct (first_step params) as [_ E].
  rewrite (stepPhysics_time _ _ _ E). cbn [resetSimulation time].
  unfold DT. lra.
Qed.

(** X4. Once the particle is out of bounds nothing but a reset moves it:
    over any sequence of frames and params changes the position, the trail
    and the time stay as they are (a velocity edit still replaces the
    velocity).  After [resetSimulation], or after the canvas is mounted
    anew with the current params (what [resetSim] of App.tsx causes), the
    next frame advances again, to time dt. *)
Theorem out_of_bounds_frozen (ops : list Op) (c : Refs) :
  exceedsBounds (position (stateRef c)) ->
  Forall (fun op => op <> Reset) ops ->
  position (stateRef (run ops c)) = position (stateRef c)
  /\ history (stateRef (run ops c)) = history (stateRef c)
  /\ time (stateRef (run ops c)) = time (stateRef c)
  /\ time (stateRef (applyOp Frame (applyOp Reset (run ops c)))) = 0.05
  /\ time (stateRef (applyOp Frame (mount (paramsRef (run ops c))))) = 0.05.
Proof.
  intros Hx Hops.
  assert (H : position (stateRef (run ops c)) = position (stateRef c)
              /\ history (stateRef (run ops c)) = history (stateRef c)
              /\ time (stateRef (run ops c)) = time (stateRef c)).
  { revert c Hx. induction Hops as [|op ops Hop _ IH]; intros c Hx.
    - repeat split.
    - change (run (op :: ops) c) with (run ops (applyOp op c)).
      destruct (applyOp_frozen op c Hx Hop) as (Hp & Hh & Ht).
      destruct (IH (applyOp op c)) as (Hp' & Hh' & Ht').
      { rewrite Hp. exact Hx. }
      rewrite Hp', Hh', Ht'. repeat split; assumption. }
  destruct H as (Hp & Hh & Ht).
  split; [exact Hp|]. split; [exact Hh|]. split; [exact Ht|].
  split; cbn [applyOp mount stateRef paramsRef]; apply restart_time.
Qed.

Lemma out_of_bounds_frozen_witness :
  position (stateRef (run [Frame; SetParams slowerParams; Frame] strayRefs))
  = Vector3.mk 321 0 0
  /\ time (stateRef (run [Frame; SetParams slowerParams; Frame] strayRefs))
     = 16.05.
Proof.
  assert (Hx : exceedsBounds (position (stateRef strayRefs))).
  { left. unfold strayRefs, strayState, BOUNDS_LIMIT.
    cbn [stateRef position x]. rewrite Rabs_pos_eq; lra. }
  assert (Hops : Forall (fun op => op <> Reset)
                        [Frame; SetParams slowerParams; Frame]).
  { repeat constructor; discriminate. }
  destruct (out_of_bounds_frozen _ strayRefs Hx Hops) as (Hp & _ & Ht & _).
  rewrite Hp, Ht. split; reflexivity.
Defined.

(** ** Overshoot *)

Lemma step_displacement (params : SimulationParams)
  (st st' : SimulationState) :
  stepPhysics params st = (Advanced, st') ->
  let w := turn2 params in
  norm2 (vsub (position st') (position st))
  = DT ^ 2 * (norm2 (velocity st)
              - (/ 12 + w / 72 - w ^ 2 / 576)
                * norm2 (vscale DT (accel params (velocity st)))).
Proof.
  intros E. pose proof (step_position _ _ _ E) as Hr. cbv zeta in Hr.
  rewrite Hr. clear Hr E. unfold turn2, accel.
  generalize (charge params / mass params) as qm; intros qm.
  generalize DT as dt; intros dt.
  destruct (velocity st) as [v1 v2 v3].
  destruct (position st) as [r1 r2 r3].
  destruct (bField params) as [b1 b2 b3].
  cbv beta iota zeta delta [vsub vadd vscale cross dot norm2 x y z].
  field.
Qed.

Lemma steps_last (params : SimulationParams) (n : nat) :
  forall st0 st,
    steps (S n) params st0 = Some st ->
    exists mid,
      steps n params st0 = Some mid
      /\ stepPhysics params mid = (Advanced, st).
Proof.
  induction n as [|n IH]; intros st0 st Hs.
  - cbn [steps] in Hs.
    destruct (stepPhysics params st0) as [[|] st1] eqn:E; [|discriminate].
    injection Hs as <-. exists st0. split; [reflexivity | exact E].
  - cbn [steps] in Hs.
    destruct (stepPhysics params st0) as [[|] st1] eqn:E; [|discriminate].
    destruct (IH st1 st Hs) as (mid & Hm & Hl).
    exists mid. split; [|exact Hl]. cbn [steps]. rewrite E. exact Hm.
Qed.

Lemma coordinate_le_norm (u : Vector3) :
  Rabs (x u) <= norm u /\ Rabs (y u) <= norm u /\ Rabs (z u) <= norm u.
Proof.
  destruct u as [a b c]. unfold norm, norm2, dot. cbn [x y z].
  repeat split; rewrite <- sqrt_Rsqr_abs; apply sqrt_le_1_alt;
    unfold Rsqr; nra.
Qed.

(** One step moves the particle by at most dt |v|. *)
Lemma step_reach (params : SimulationParams) (st st' : SimulationState) :
  turn2 params <= 12 ->
  stepPhysics params st = (Advanced, st') ->
  norm (vsub (position st') (position st)) <= DT * norm (velocity st).
Proof.
  intros H12 E. pose proof (turn2_nonneg params) as H0.
  pose proof (step_displacement _ _ _ E) as H. cbv zeta in H.
  pose proof (kick_nonneg params st) as Hk.
  assert (Hg : 0 <= / 12 + turn2 params / 72 - turn2 params ^ 2 / 576)
    by nra.
  assert (Hle : norm2 (vsub (position st') (position st))
                <= DT ^ 2 * norm2 (velocity st)).
  { rewrite H. pose proof (Rmult_le_pos _ _ Hg Hk) as Hgk.
    apply Rmult_le_compat_l; [apply pow2_ge_0 | lra]. }
  unfold norm.
  replace (DT * sqrt (norm2 (velocity st)))
    with (sqrt (DT ^ 2 * norm2 (velocity st))).
  - apply sqrt_le_1_alt, Hle.
  - rewrite sqrt_mult_alt by (unfold DT; nra).
    replace (DT ^ 2) with (DT * DT) by ring.
    rewrite sqrt_square by (unfold DT; lra). reflexivity.
Qed.

Lemma reach_coordinate (a b v : R) :
  Rabs a <= 320 -> Rabs (b - a) <= 0.05 * v -> Rabs b <= 320 + 0.05 * v.
Proof.
  intros Ha Hb. replace b with (a + (b - a)) by ring.
  eapply Rle_trans; [apply Rabs_triang | lra].
Qed.

(** X5. The bounds test lets the particle leave the box by less than one
    step: when (dt q/m)^2 |B|^2 <= 8, every state reached by advancing
    steps from a position within the bounds has each coordinate within
    320 + dt |v0|, where v0 is the velocity the run started with. *)
Theorem overshoot_bounded (params : SimulationParams) (n : nat)
  (st0 st : SimulationState) :
  (0.05 * (charge params / mass params)) ^ 2 * norm2 (bField params) <= 8 ->
  inBounds (position st0) ->
  steps n params st0 = Some st ->
  let reach := 320 + 0.05 * norm (velocity st0) in
  Rabs (x (position st)) <= reach
  /\ Rabs (y (position st)) <= reach
  /\ Rabs (z (position st)) <= reach.
Proof.
  intros Hw Hin Hs reach.
  assert (H8 : turn2 params <= 8).
  { unfold turn2, DT. rewrite (Rmult_comm _ 0.05). exact Hw. }
  assert (Hn0 : 0 <= norm (velocity st0)) by apply sqrt_pos.
  destruct n as [|n].
  - injection Hs as <-. unfold inBounds, BOUNDS_LIMIT in Hin.
    subst reach. repeat split; lra.
  - destruct (steps_last params n st0 st Hs) as (mid & Hm & E).
    assert (Hmid : inBounds (position mid)).
    { apply outOfBounds_false.
      pose proof (stepPhysics_signal params mid) as Hsig.
      rewrite E in Hsig. cbn [fst] in Hsig.
      destruct (outOfBounds (position mid)); [discriminate | reflexivity]. }
    assert (Hv : norm (velocity mid) <= norm (velocity st0)).
    { apply sqrt_le_1_alt, (steps_speed_bounded params n H8 st0 mid Hm). }
    assert (Hr : norm (vsub (position st) (position mid))
                 <= DT * norm (velocity mid)).
    { apply (step_reach params); [lra | exact E]. }
    destruct (coordinate_le_norm (vsub (position st) (position mid)))
      as (Hx & Hy & Hz).
    unfold inBounds, BOUNDS_LIMIT in Hmid. destruct Hmid as (Mx & My & Mz).
    unfold DT in Hr. subst reach. cbn [vsub x y z] in Hx, Hy, Hz.
    repeat split.
    + apply (reach_coordinate _ _ _ Mx). lra.
    + apply (reach_coordinate _ _ _ My). lra.
    + apply (reach_coordinate _ _ _ Mz). lra.
Qed.

Lemma overshoot_bounded_witness :
  exists st,
    steps 1 initialParams (resetSimulation initialParams) = Some st
    /\ Rabs (x (position st))
       <= 320 + 0.05 * norm (velocity (resetSimulation initialParams)).
Proof.
  destruct (first_step initialParams) as [Hs _].
  eexists. split; [exact Hs|].
  assert (Hw : (0.05 * (charge initialParams / mass initialParams)) ^ 2
               * norm2 (bField initialParams) <= 8).
  { unfold norm2, dot, initialParams. cbn [charge mass bField x y z]. lra. }
  assert (Hin : inBounds (position (resetSimulation initialParams)))
    by exact inBounds_origin.
  exact (proj1 (overshoot_bounded initialParams 1 _ _ Hw Hin Hs)).
Defined.

(** ** Camera controls *)

Lemma clamp_range (lo hi v : R) :
  lo <= hi -> lo <= Rmax lo (Rmin hi v) <= hi.
Proof.
  intros H. split; [apply Rmax_l|].
  apply Rmax_lub; [exact H | apply Rmin_l].
Qed.

Lemma handle_limits (c : Controls.t) (g : Gesture) :
  withinLimits (Controls.camera c) ->
  withinLimits (Controls.camera (handle c g)).
Proof.
  intros [Hp Hz]. pose proof PI_RGT_0 as Hpi.
  destruct g; cbn [handle]; unfold handleMouseDown, handleMouseMove,
    handleMouseUp, handleWheel, withinLimits.
  - cbn. tauto.
  - destruct (Controls.isDragging c); cbn [negb Controls.camera pitch zoom].
    + split; [apply clamp_range; lra | exact Hz].
    + tauto.
  - cbn. tauto.
  - cbn. tauto.
  - cbn [Controls.camera pitch zoom]. split; [exact Hp|].
    apply clamp_range; lra.
Qed.

(** X6. Whatever the user does with the mouse and the wheel, the camera
    stays within its limits: after any sequence of events from the initial
    camera the pitch lies in [-PI/2, PI/2] and the zoom in [0.1, 5].  A
    single drag move, or a single wheel event, brings the pitch, or the
    zoom, into its range from any camera. *)
Theorem camera_within_limits (gs : list Gesture) :
  withinLimits (Controls.camera (fold_left handle gs initialControls))
  /\ (forall c cx cy,
        Controls.isDragging c = true ->
        - PI / 2 <= pitch (Controls.camera (handleMouseMove cx cy c))
                 <= PI / 2)
  /\ (forall c dY, 0.1 <= zoom (Controls.camera (handleWheel dY c)) <= 5).
Proof.
  pose proof PI_RGT_0 as Hpi. pose proof PI2_1 as Hpi1.
  split; [|split].
  - assert (H0 : withinLimits (Controls.camera initialControls)).
    { unfold withinLimits, initialControls. cbn. lra. }
    revert H0. generalize initialControls.
    induction gs as [|g gs IH]; intros c Hc; cbn [fold_left]; [exact Hc|].
    apply IH, handle_limits, Hc.
  - intros c cx cy Hd. unfold handleMouseMove. rewrite Hd.
    cbn [negb Controls.camera pitch]. apply clamp_range; lra.
  - intros c dY. unfold handleWheel. cbn [Controls.camera zoom].
    apply clamp_range; lra.
Qed.

Lemma last_cons2 (A : Type) (a b d : A) (l : list A) :
  last (a :: b :: l) d = last (b :: l) a.
Proof.
  change (last (a :: b :: l) d) with (last (b :: l) d).
  revert b. induction l as [|c l IH]; intros b; [reflexivity|].
  change (last (b :: c :: l) d) with (last (c :: l) d).
  change (last (b :: c :: l) a) with (last (c :: l) a).
  apply IH.
Qed.

Lemma drag_yaw (moves : list (R * R)) :
  forall c,
    Controls.isDragging c = true ->
    let c' := drag moves c in
    Controls.isDragging c' = true
    /\ yaw (Controls.camera c')
       = yaw (Controls.camera c)
         + 0.005 * (fst (last moves (Point2.x (Controls.lastMousePos c),
                                     Point2.y (Controls.lastMousePos c)))
                    - Point2.x (Controls.lastMousePos c))
    /\ zoom (Controls.camera c') = zoom (Controls.camera c).
Proof.
  induction moves as [|[mx my] moves IH]; intros c Hd.
  - cbn. repeat split; [exact Hd | lra].
  - cbn zeta. change (drag ((mx, my) :: moves) c)
      with (drag moves (handleMouseMove mx my c)).
    assert (Hd1 : Controls.isDragging (handleMouseMove mx my c) = true).
    { unfold handleMouseMove. rewrite Hd. cbn. reflexivity. }
    destruct (IH _ Hd1) as (Hd' & Hy & Hz). cbv zeta in *.
    split; [exact Hd'|]. rewrite Hy, Hz.
    unfold handleMouseMove. rewrite Hd.
    cbn [negb Controls.camera Controls.lastMousePos yaw zoom Point2.x Point2.y
         fst snd].
    split; [|reflexivity].
    destruct moves as [|m2 moves'].
    + cbn [last fst]. lra.
    + rewrite last_cons2. lra.
Qed.

Lemma drag_released (moves : list (R * R)) :
  forall u, Controls.isDragging u = false -> drag moves u = u.
Proof.
  induction moves as [|m moves IH]; intros u Hu; [reflexivity|].
  cbn [drag fold_left]. unfold handleMouseMove at 2. rewrite Hu.
  cbn [negb]. apply IH, Hu.
Qed.

(** X7. The yaw follows the pointer: after the button is pressed at
    (x0, y0) and the pointer moved through any positions, the yaw has
    changed by 0.005 times the horizontal distance from x0 to the last
    position, however the pointer got there, and the zoom is untouched.
    Once the button is released, the same moves change nothing. *)
Theorem drag_turns_camera (c : Controls.t) (x0 y0 : R)
  (moves : list (R * R)) :
  let c' := drag moves (handleMouseDown x0 y0 c) in
  yaw (Controls.camera c')
  = yaw (Controls.camera c) + 0.005 * (fst (last moves (x0, y0)) - x0)
  /\ zoom (Controls.camera c') = zoom (Controls.camera c)
  /\ drag moves (handleMouseUp c') = handleMouseUp c'.
Proof.
  intros c'.
  destruct (drag_yaw moves (handleMouseDown x0 y0 c) eq_refl)
    as (_ & Hy & Hz).
  cbv zeta in Hy, Hz. fold c' in Hy, Hz.
  cbn [handleMouseDown Controls.camera Controls.lastMousePos
       Point2.x Point2.y] in Hy, Hz.
  split; [exact Hy|]. split; [exact Hz|].
  apply drag_released. reflexivity.
Qed.

(** ** The scale of the projection *)

Lemma project_scale (camera : CameraState) (p : Vector3) (width height : R) :
  Projected.scale (project camera p width height)
  = 600 / Rmax 1 (viewDepth camera p) * zoom camera.
Proof.
  unfold project, viewDepth, rotatePitch, rotateYaw.
  cbn [Projected.scale x y z]. reflexivity.
Qed.

Lemma perspective_range (d : R) : 0 < 600 / Rmax 1 d <= 600.
Proof.
  pose proof (Rmax_l 1 d) as H.
  assert (Hp : 0 < Rmax 1 d) by lra.
  split.
  - apply Rdiv_lt_0_compat; lra.
  - apply (Rmult_le_reg_r (Rmax 1 d)); [exact Hp|].
    unfold Rdiv. rewrite Rmult_assoc, Rinv_l by lra. lra.
Qed.

Lemma perspective_antitone (d e : R) :
  d <= e -> 600 / Rmax 1 e <= 600 / Rmax 1 d.
Proof.
  intros H. pose proof (Rmax_l 1 d) as Hd.
  assert (Hm : Rmax 1 d <= Rmax 1 e).
  { apply Rmax_lub; [apply Rmax_l|].
    eapply Rle_trans; [exact H | apply Rmax_r]. }
  unfold Rdiv. apply Rmult_le_compat_l; [lra|].
  apply Rinv_le_contravar; lra.
Qed.

(** X8. With a positive zoom the scale that [project] returns (it sets
    the line width of the arrows and the size of the particle) is positive
    and at most 600 zoom for every point; a point that is deeper in the
    view is never drawn larger; all the points at depth 1 or less, and
    those behind the camera, get the same, largest scale; from depth 1 on
    the scale is 600 zoom / depth. *)
Theorem scale_perspective (camera : CameraState) (width height : R) :
  0 < zoom camera ->
  let scale := fun p => Projected.scale (project camera p width height) in
  (forall p, 0 < scale p <= 600 * zoom camera)
  /\ (forall p q,
        viewDepth camera p <= viewDepth camera q -> scale q <= scale p)
  /\ (forall p, viewDepth camera p <= 1 -> scale p = 600 * zoom camera)
  /\ (forall p, 1 <= viewDepth camera p ->
        scale p * viewDepth camera p = 600 * zoom camera).
Proof.
  intros Hz scale. subst scale. cbv beta.
  split; [|split; [|split]].
  - intros p. rewrite project_scale.
    pose proof (perspective_range (viewDepth camera p)). nra.
  - intros p q H. rewrite !project_scale.
    apply Rmult_le_compat_r; [lra | apply perspective_antitone, H].
  - intros p H. rewrite project_scale, Rmax_left by exact H. lra.
  - intros p H. rewrite project_scale, Rmax_right by exact H. field. lra.
Qed.

Lemma scale_perspective_witness :
  0 < Projected.scale (project frontCamera xAxisTip 800 600) <= 600.
Proof.
  assert (Hz : 0 < zoom frontCamera) by (cbn; lra).
  destruct (scale_perspective frontCamera 800 600 Hz) as (H & _).
  specialize (H xAxisTip). cbn [frontCamera zoom] in H. lra.
Defined.

(** X9. The origin of the scene is the pivot of the view: whatever the
    pitch and the yaw, it is projected to (width/2 - 100, height/2) with
    scale 1.5 zoom.  Turning the yaw by whole turns changes the projection
    of no point. *)
Theorem project_pivot (camera : CameraState) (width height : R) :
  project camera origin width height
  = Projected.mk (width / 2 - 100) (height / 2) (1.5 * zoom camera)
  /\ (forall (k : nat) p,
        project (CameraState.mk (pitch camera)
                                (yaw camera + 2 * INR k * PI)
                                (zoom camera)) p width height
        = project camera p width height).
Proof.
  split.
  - unfold project, origin. cbn [x y z].
    replace (Rmax 1 (400 + ((0 * sin (yaw camera) + 0 * cos (yaw camera))
                            * cos (pitch camera) - 0 * sin (pitch camera))))
      with 400.
    + apply projected_eq; lra.
    + rewrite Rmax_right; lra.
  - intros k p. unfold project. cbn [pitch yaw zoom].
    rewrite cos_period, sin_period. reflexivity.
Qed.

(** ** Labels that are always shown *)

Lemma pivot_inside (p0 p1 : Projected.t) (width height : R) :
  250 <= width -> 50 <= height ->
  Projected.x p0 = width / 2 - 100 -> Projected.y p0 = height / 2 ->
  insideInset width height (segmentPoint p0 p1 0).
Proof.
  intros Hw Hh Hx Hy. unfold insideInset, segmentPoint.
  cbn [Point2.x Point2.y]. rewrite Hx, Hy. lra.
Qed.

(** X10. In a viewport of at least 250 x 50 pixels an axis label is never
    dropped: for every camera and every axis tip, [getLabelPosition] from
    the origin returns a point, that point lies on the projected segment
    from the origin to the tip (parameter t1 in [0, 1]), and it lies within
    the viewport inset by 25px. *)
Theorem axis_label_shown (camera : CameraState) (axisTip : Vector3)
  (width height : R) :
  250 <= width -> 50 <= height ->
  exists t1,
    0 <= t1 <= 1
    /\ getLabelPosition camera origin axisTip width height
       = Some (segmentPoint (project camera origin width height)
                            (project camera axisTip width height) t1)
    /\ insideInset width height
         (segmentPoint (project camera origin width height)
                       (project camera axisTip width height) t1).
Proof.
  intros Hw Hh.
  set (p0 := project camera origin width height).
  set (p1 := project camera axisTip width height).
  set (edges := labelEdges p0 p1 width height).
  assert (H0 : insideInset width height (segmentPoint p0 p1 0)).
  { apply pivot_inside; try assumption; subst p0;
      rewrite (proj1 (project_pivot camera width height)); reflexivity. }
  apply labelEdges_inside in H0. fold edges in H0.
  assert (H00 : 0 <= 0 <= 1) by lra.
  destruct (proj1 (lb_interval edges 0 1 0) (conj H00 H0)) as (Hpar & Hin).
  assert (H01 : 0 <= 1) by lra.
  pose proof (clipEdges_spec edges 0 1 H01) as Hc.
  unfold getLabelPosition. fold p0 p1. fold edges.
  destruct (clipEdges edges 0 1) as [[a b]|].
  - destruct Hc as (_ & -> & -> & Hle).
    set (t1 := fold_left lowerExit edges 1) in *.
    set (t0 := fold_left raiseEntry edges 0) in *.
    assert (Ht : t0 <= t1 <= t1) by lra.
    destruct (proj2 (lb_interval edges 0 1 t1) (conj Hpar Ht)) as (Hr & Hf).
    exists t1. split; [exact Hr|].
    split; [|apply labelEdges_inside; exact Hf].
    decide_cmp. reflexivity.
  - destruct Hc as [Hc|Hc]; [congruence | lra].
Qed.

Lemma axis_label_shown_witness :
  getLabelPosition frontCamera origin xAxisTip 800 600 <> None.
Proof.
  assert (Hw : 250 <= 800) by lra.
  assert (Hh : 50 <= 600) by lra.
  destruct (axis_label_shown frontCamera xAxisTip 800 600 Hw Hh)
    as (t1 & _ & E & _).
  rewrite E. discriminate.
Defined.

(** ** Edits in the control panel *)

Lemma neqb_refl (a : R) : neqb a a = false.
Proof. apply neqb_false. reflexivity. Qed.

Lemma onParamsChange_same_velocity (params : SimulationParams) (c : Refs) :
  SimulationParams.velocity params
  = SimulationParams.velocity (prevParamsRef c) ->
  stateRef (onParamsChange params c) = stateRef c.
Proof.
  intros E. unfold onParamsChange. rewrite E, !neqb_refl. reflexivity.
Qed.

Lemma setAxis_changed (axis : Axis) (v : R) (u : Vector3) :
  v <> getAxis axis u ->
  neqb (x u) (x (setAxis axis v u)) || neqb (y u) (y (setAxis axis v u))
  || neqb (z u) (z (setAxis axis v u)) = true.
Proof.
  intros H.
  assert (Hn : neqb (getAxis axis u) v = true).
  { apply neqb_true. intros E. apply H. symmetry. exact E. }
  destruct axis; cbn [setAxis getAxis x y z] in *; rewrite Hn, ?neqb_refl;
    reflexivity.
Qed.

(** X11. What an edit in the control panel does to a running simulation,
    when the canvas has seen the current params: an edit of the charge,
    of the mass or of a field component leaves the simulation state as it
    is; an input that does not parse (NaN) changes nothing at all; an edit
    of one velocity component to a new value keeps position, trail and
    time, and replaces the whole velocity of the particle, all three
    components, by the velocity of the panel; setting a component to the
    value it has leaves the velocity of the particle alone. *)
Theorem panel_edit (c : Refs) :
  prevParamsRef c = paramsRef c ->
  let p := paramsRef c in
  (forall key value, stateRef (editParams (updateScalar key value p) c)
                     = stateRef c)
  /\ (forall axis value,
        stateRef (editParams (updateVector KeyBField axis value p) c)
        = stateRef c)
  /\ (forall axis, editParams (updateVector KeyVelocity axis None p) c = c)
  /\ (forall axis v,
        let st' := stateRef (editParams
                               (updateVector KeyVelocity axis (Some v) p) c) in
        position st' = position (stateRef c)
        /\ history st' = history (stateRef c)
        /\ time st' = time (stateRef c)
        /\ (v <> getAxis axis (SimulationParams.velocity p) ->
            velocity st' = setAxis axis v (SimulationParams.velocity p))
        /\ (v = getAxis axis (SimulationParams.velocity p) ->
            velocity st' = velocity (stateRef c)))
  /\ (forall update,
        prevParamsRef (editParams update c)
        = paramsRef (editParams update c)).
Proof.
  intros Hprev p. subst p.
  split; [|split; [|split; [|split]]].
  - intros key [v|]; [|reflexivity]. cbn [updateScalar editParams].
    apply onParamsChange_same_velocity. rewrite Hprev.
    destruct key; reflexivity.
  - intros axis [v|]; [|reflexivity]. cbn [updateVector editParams].
    apply onParamsChange_same_velocity. rewrite Hprev. reflexivity.
  - reflexivity.
  - intros axis v. cbn [updateVector editParams]. cbv zeta.
    unfold onParamsChange. rewrite Hprev.
    cbn [SimulationParams.velocity stateRef].
    set (u := SimulationParams.velocity (paramsRef c)).
    destruct (Req_dec_T v (getAxis axis u)) as [E|E].
    + assert (Hs : setAxis axis v u = u).
      { subst v. destruct u, axis; reflexivity. }
      rewrite Hs, !neqb_refl. cbn [orb].
      repeat split; try reflexivity. intros H. contradiction.
    + rewrite (setAxis_changed axis v u E).
      cbn [position velocity history time].
      repeat split; try reflexivity. intros H. contradiction.
  - intros [params|]; [reflexivity | exact Hprev].
Qed.

Lemma panel_edit_witness :
  velocity (stateRef (editParams
                        (updateVector KeyVelocity AxisX (Some 3)
                                      initialParams)
                        (mount initialParams)))
  = Vector3.mk 3 0 2.
Proof.
  destruct (panel_edit (mount initialParams) eq_refl)
    as (_ & _ & _ & H & _).
  destruct (H AxisX 3) as (_ & _ & _ & Hv & _).
  cbv zeta in Hv. cbn [mount paramsRef] in Hv. rewrite Hv.
  - reflexivity.
  - cbn. lra.
Defined.

(** ** Arrows *)

Lemma sqrt_sum_pos (a b : R) : a <> 0 \/ b <> 0 -> 0 < sqrt (a * a + b * b).
Proof. intros H. apply sqrt_lt_R0. nra. Qed.

Lemma atan_dir (a b : R) :
  0 < a ->
  cos (atan (b / a)) = a / sqrt (a * a + b * b)
  /\ sin (atan (b / a)) = b / sqrt (a * a + b * b).
Proof.
  intros Ha.
  assert (Hr : 0 < sqrt (a * a + b * b)) by (apply sqrt_sum_pos; lra).
  assert (Hs : sqrt (1 + (b / a)²) = sqrt (a * a + b * b) / a).
  { apply sqrt_lem_1.
    - unfold Rsqr. nra.
    - apply Rlt_le, Rdiv_lt_0_compat; assumption.
    - unfold Rdiv. rewrite Rmult_assoc, (Rmult_comm (/ a)), <- !Rmult_assoc.
      rewrite sqrt_sqrt by nra. unfold Rsqr. field. lra. }
  rewrite cos_atan, sin_atan, Hs. split; field; lra.
Qed.

(** [atan2] returns the angle of the direction (a, b). *)
Lemma atan2_dir (b a : R) :
  a <> 0 \/ b <> 0 ->
  cos (atan2 b a) = a / sqrt (a * a + b * b)
  /\ sin (atan2 b a) = b / sqrt (a * a + b * b).
Proof.
  intros H. pose proof (sqrt_sum_pos a b H) as Hr. unfold atan2.
  destruct (Rtotal_order a 0) as [Ha|[Ha|Ha]].
  - repeat decide_cmp.
    assert (Hn : 0 < - a) by lra.
    destruct (atan_dir (- a) (- b) Hn) as [Hc Hs].
    replace (- b / - a) with (b / a) in Hc, Hs by (field; lra).
    replace (- a * - a + - b * - b) with (a * a + b * b) in Hc, Hs by ring.
    destruct (ltb b 0).
    + unfold Rminus. rewrite cos_plus, sin_plus, cos_neg, sin_neg.
      rewrite cos_PI, sin_PI, Hc, Hs. split; field; lra.
    + rewrite cos_plus, sin_plus, cos_PI, sin_PI, Hc, Hs. split; field; lra.
  - subst a. repeat decide_cmp.
    assert (Hb : b <> 0) by (destruct H; [lra | assumption]).
    replace (0 * 0 + b * b) with (b * b) in * by ring.
    destruct (Rtotal_order b 0) as [Hb0|[Hb0|Hb0]]; [|lra|].
    + repeat decide_cmp.
      replace (- PI / 2) with (- (PI / 2)) by field.
      rewrite cos_neg, sin_neg, cos_PI2, sin_PI2.
      replace (b * b) with ((- b) * (- b)) by ring.
      rewrite sqrt_square by lra. split; field; lra.
    + repeat decide_cmp. rewrite cos_PI2, sin_PI2.
      rewrite sqrt_square by lra. split; field; lra.
  - repeat decide_cmp. apply atan_dir, Ha.
Qed.

Lemma atan2_scaled (b a : R) :
  sqrt (a * a + b * b) * cos (atan2 b a) = a
  /\ sqrt (a * a + b * b) * sin (atan2 b a) = b.
Proof.
  destruct (Req_dec_T a 0) as [Ha|Ha]; [destruct (Req_dec_T b 0) as [Hb|Hb]|].
  - subst. replace (0 * 0 + 0 * 0) with 0 by ring. rewrite sqrt_0. lra.
  - destruct (atan2_dir b a (or_intror Hb)) as [-> ->].
    pose proof (sqrt_sum_pos a b (or_intror Hb)). split; field; lra.
  - destruct (atan2_dir b a (or_introl Ha)) as [-> ->].
    pose proof (sqrt_sum_pos a b (or_introl Ha)). split; field; lra.
Qed.

Lemma norm_pow (v : Vector3) :
  sqrt (x v ^ 2 + y v ^ 2 + z v ^ 2) = norm v.
Proof. unfold norm, norm2, dot. f_equal. ring. Qed.

Lemma head_corner (tx ty l a : R) :
  (tx - l * cos a - tx) ^ 2 + (ty - l * sin a - ty) ^ 2 = l ^ 2.
Proof.
  pose proof (sin2_cos2 a) as H. unfold Rsqr in H.
  transitivity (l ^ 2 * (sin a * sin a + cos a * cos a)); [ring|].
  rewrite H. ring.
Qed.

Lemma head_axis (sx sy tx ty l h : R) :
  let a := atan2 (ty - sy) (tx - sx) in
  let shaft := sqrt ((tx - sx) * (tx - sx) + (ty - sy) * (ty - sy)) in
  shaft * ((tx - l * cos (a - h) + (tx - l * cos (a + h))) / 2 - tx)
  = - (l * cos h) * (tx - sx)
  /\ shaft * ((ty - l * sin (a - h) + (ty - l * sin (a + h))) / 2 - ty)
     = - (l * cos h) * (ty - sy).
Proof.
  intros a shaft.
  destruct (atan2_scaled (ty - sy) (tx - sx)) as [Hc Hs].
  fold shaft a in Hc, Hs.
  rewrite cos_minus, cos_plus, sin_minus, sin_plus.
  split.
  - transitivity (- (l * cos h) * (shaft * cos a)); [field|].
    rewrite Hc. reflexivity.
  - transitivity (- (l * cos h) * (shaft * sin a)); [field|].
    rewrite Hs. reflexivity.
Qed.

(** X12. [drawArrow3D] draws nothing when the vector is shorter than 0.1
    or when both projected ends are more than 50px outside the viewport.
    Otherwise it strokes the shaft from the projected origin to the
    projected tip and fills a triangle with its apex at the tip: the two
    other corners are at distance headLen = headBase scale(tip) from the
    tip, and the middle of their side lies on the line of the shaft,
    headLen cos(PI/12) behind the tip (the equations are multiplied by the
    length of the shaft on screen, so they also hold when it is 0). *)
Theorem arrow_head (camera : CameraState) (width height : R)
  (org vector : Vector3) (color : String.string) (lengthScale headBase : R) :
  let endPoint := Vector3.mk (x org + x vector * lengthScale)
                             (y org + y vector * lengthScale)
                             (z org + z vector * lengthScale) in
  let start := project camera org width height in
  let tip := project camera endPoint width height in
  let sx := Projected.x start in
  let sy := Projected.y start in
  let tx := Projected.x tip in
  let ty := Projected.y tip in
  let headLen := headBase * Projected.scale tip in
  let shaft := sqrt ((tx - sx) * (tx - sx) + (ty - sy) * (ty - sy)) in
  let drawn := drawArrow3D camera width height org vector color
                           lengthScale headBase in
  (drawn = []
   /\ (norm vector < 0.1
       \/ (offScreen start width height 50 = true
           /\ offScreen tip width height 50 = true)))
  \/ (0.1 <= norm vector
      /\ (offScreen start width height 50 = false
          \/ offScreen tip width height 50 = false)
      /\ exists ax ay bx by_,
          drawn = [ BeginPath; MoveTo sx sy; LineTo tx ty;
                    SetStrokeStyle color;
                    SetLineWidth (0.5 * Projected.scale start); Stroke;
                    BeginPath; MoveTo tx ty; LineTo ax ay; LineTo bx by_;
                    LineTo tx ty; SetFillStyle (Color color); Fill ]
          /\ (ax - tx) ^ 2 + (ay - ty) ^ 2 = headLen ^ 2
          /\ (bx - tx) ^ 2 + (by_ - ty) ^ 2 = headLen ^ 2
          /\ shaft * ((ax + bx) / 2 - tx)
             = - (headLen * cos (PI / 12)) * (tx - sx)
          /\ shaft * ((ay + by_) / 2 - ty)
             = - (headLen * cos (PI / 12)) * (ty - sy)).
Proof.
  intros endPoint start tip sx sy tx ty headLen shaft drawn.
  subst drawn. unfold drawArrow3D. rewrite norm_pow.
  fold endPoint. fold start. fold tip. fold sx sy tx ty. fold headLen.
  destruct (ltb (norm vector) 0.1) eqn:Hm.
  { left. apply ltb_true in Hm. tauto. }
  apply ltb_false in Hm.
  destruct (offScreen start width height 50) eqn:Hs;
    [destruct (offScreen tip width height 50) eqn:Ht|]; cbn [andb].
  { left. tauto. }
  all: right; split; [lra|]; split; [tauto|].
  all: eexists _, _, _, _; split; [reflexivity|].
  all: split; [apply head_corner|]; split; [apply head_corner|].
  all: apply head_axis.
Qed.

(** ** The trail and the particle *)

Lemma applyOp_trail (op : Op) (c : Refs) :
  trailBounded c /\ trailAtParticle (stateRef c) ->
  trailBounded (applyOp op c) /\ trailAtParticle (stateRef (applyOp op c)).
Proof.
  unfold trailBounded, trailAtParticle. intros [Hb Hl].
  destruct op as [| |p]; cbn [applyOp stateRef].
  - split; [apply stepPhysics_trail, Hb|].
    destruct (outOfBounds (position (stateRef c))) eqn:Ho.
    + rewrite (stepPhysics_halted _ _ Ho). exact Hl.
    + pose proof (stepPhysics_advanced (paramsRef c) _ Ho) as E.
      right. rewrite (stepPhysics_history _ _ _ E). apply pushTrail_last.
  - split; [cbn; lia | left; reflexivity].
  - rewrite onParamsChange_history. split; [exact Hb|].
    unfold onParamsChange. cbn [stateRef].
    destruct (_ || _); [cbn [history position] | ]; exact Hl.
Qed.

Lemma run_trail (ops : list Op) :
  forall c,
    trailBounded c /\ trailAtParticle (stateRef c) ->
    trailBounded (run ops c) /\ trailAtParticle (stateRef (run ops c)).
Proof.
  induction ops as [|op ops IH]; intros c H; [exact H|].
  cbn [run fold_left]. apply IH, applyOp_trail, H.
Qed.

Lemma last_skipn1 (l : list Vector3) (d : Vector3) :
  (1 < length l)%nat -> last (skipn 1 l) d = last l d.
Proof.
  destruct l as [|a [|b l]]; cbn [length]; try lia. reflexivity.
Qed.

Lemma drawTrajectory_end (camera : CameraState) (width height : R)
  (hist : list Vector3) :
  (1 < length hist)%nat ->
  let p := project camera (last hist origin) width height in
  exists path,
    drawTrajectory camera width height hist
    = path ++ [ LineTo (Projected.x p) (Projected.y p);
                SetStrokeStyle "#22d3ee"; SetLineWidth 2; Stroke ]
    /\ length path = length hist.
Proof.
  intros Hlen p. unfold drawTrajectory.
  destruct (Nat.ltb_spec 1 (length hist)) as [_|H]; [|lia].
  assert (Hne : skipn 1 hist <> []).
  { destruct hist as [|a [|b l]]; cbn in *; try lia. discriminate. }
  destruct (exists_last Hne) as (front & e & Hsk).
  assert (He : e = last hist origin).
  { rewrite <- (last_skipn1 hist origin Hlen), Hsk. symmetry.
    apply last_last. }
  exists (BeginPath
          :: MoveTo (Projected.x (project camera
                                    (nth 0 hist (Vector3.mk 0 0 0))
                                    width height))
                    (Projected.y (project camera
                                    (nth 0 hist (Vector3.mk 0 0 0))
                                    width height))
          :: map (fun h => let q := project camera h width height in
                           LineTo (Projected.x q) (Projected.y q)) front).
  split.
  - rewrite Hsk, map_app. cbn [map app]. subst p. rewrite <- He.
    rewrite <- app_assoc. reflexivity.
  - cbn [length]. rewrite length_map.
    assert (Hl : length (skipn 1 hist) = (length hist - 1)%nat)
      by apply length_skipn.
    rewrite Hsk, length_app in Hl. cbn [length] in Hl. lia.
Qed.

(** X13. In every state the component can reach from its mount (frames,
    resets and params changes in any order) the trail holds at most 3000
    points and, when it is drawn, ends where the particle is drawn: with
    two or more points in the trail, [draw] traces a path of as many
    points as the trail holds whose last line ends at the centre of the
    circle that is drawn next for the particle; the radius of that circle
    is at least 1.  With fewer than two points no trail is drawn. *)
Theorem trail_ends_at_particle (ops : list Op) (params : SimulationParams)
  (camera : CameraState) (width height : R) :
  let c := run ops (mount params) in
  let st := stateRef c in
  let p := project camera (position st) width height in
  (length (history st) <= TRAIL_LENGTH)%nat
  /\ ((length (history st) <= 1)%nat ->
      drawTrajectory camera width height (history st) = [])
  /\ ((1 < length (history st))%nat ->
      exists before path size after,
        draw camera c width height
        = before
          ++ path
          ++ [ LineTo (Projected.x p) (Projected.y p);
               SetStrokeStyle "#22d3ee"; SetLineWidth 2; Stroke;
               BeginPath;
               Arc (Projected.x p) (Projected.y p) size 0 (PI * 2) ]
          ++ after
        /\ length path = length (history st)
        /\ 1 <= size).
Proof.
  intros c st p.
  assert (H0 : trailBounded (mount params)
               /\ trailAtParticle (stateRef (mount params))).
  { split; [unfold trailBounded; cbn; lia | left; reflexivity]. }
  destruct (run_trail ops _ H0) as [Hb Hl]. fold c in Hb, Hl. fold st in Hl.
  split; [exact Hb|]. split.
  - intros H. unfold drawTrajectory.
    destruct (Nat.ltb_spec 1 (length (history st))); [lia | reflexivity].
  - intros H.
    destruct Hl as [Hl|Hl]; [rewrite Hl in H; cbn in H; lia|].
    destruct (drawTrajectory_end camera width height _ H) as (path & E & L).
    cbv zeta in E. rewrite Hl in E. fold p in E.
    exists (drawBackground width height
            ++ drawAxes camera width height
            ++ drawLabels camera width height
            ++ drawField camera width height (bField (paramsRef c))).
    exists path. eexists. eexists.
    split; [|split; [exact L|]].
    + unfold draw. fold st. rewrite E. unfold drawParticle. fold p.
      rewrite <- !app_assoc. cbn [app]. reflexivity.
    + apply Rmax_l.
Qed.

(** ** What the motion depends on *)

Lemma accel_same (p1 p2 : SimulationParams) :
  vscale (charge p1 / mass p1) (bField p1)
  = vscale (charge p2 / mass p2) (bField p2) ->
  forall u, accel p1 u = accel p2 u.
Proof.
  unfold vscale, accel.
  generalize (charge p1 / mass p1) as q1; intros q1.
  generalize (charge p2 / mass p2) as q2; intros q2.
  destruct (bField p1) as [a1 b1 c1]. destruct (bField p2) as [a2 b2 c2].
  cbn [x y z]. intros H u. injection H as Ha Hb Hc.
  apply vec_eq.
  - transitivity (y u * (q1 * c1) - z u * (q1 * b1)); [ring|].
    rewrite Hc, Hb. ring.
  - transitivity (z u * (q1 * a1) - x u * (q1 * c1)); [ring|].
    rewrite Ha, Hc. ring.
  - transitivity (x u * (q1 * b1) - y u * (q1 * a1)); [ring|].
    rewrite Hb, Ha. ring.
Qed.

Lemma stepPhysics_same (p1 p2 : SimulationParams) (st : SimulationState) :
  (forall u, accel p1 u = accel p2 u) ->
  stepPhysicsLogged p1 st = stepPhysicsLogged p2 st.
Proof.
  intros H. unfold stepPhysicsLogged.
  destruct (outOfBounds (position st)); [reflexivity|].
  cbv beta iota zeta delta [bind call ret].
  rewrite !H. reflexivity.
Qed.

(** X14. The motion depends on the charge, the mass and the field only
    through (q/m) B: two params for which this vector is the same (the
    charge and the mass both doubled, or the charge and the field both
    reversed) give the same acceleration calls and the same state at every
    step, from every state. *)
Theorem motion_depends_on_ratio (p1 p2 : SimulationParams) :
  vscale (charge p1 / mass p1) (bField p1)
  = vscale (charge p2 / mass p2) (bField p2) ->
  forall st,
    stepPhysics p1 st = stepPhysics p2 st
    /\ accelCalls p1 st = accelCalls p2 st
    /\ (forall n, steps n p1 st = steps n p2 st).
Proof.
  intros H st. pose proof (accel_same p1 p2 H) as Ha.
  split; [|split].
  - unfold stepPhysics. rewrite (stepPhysics_same p1 p2 st Ha). reflexivity.
  - unfold accelCalls. rewrite (stepPhysics_same p1 p2 st Ha). reflexivity.
  - intros n. revert st. induction n as [|n IH]; intros st; [reflexivity|].
    cbn [steps]. unfold stepPhysics.
    rewrite (stepPhysics_same p1 p2 st Ha).
    destruct (fst (stepPhysicsLogged p2 st)) as [[|] st']; [apply IH|].
    reflexivity.
Qed.

Lemma motion_depends_on_ratio_witness :
  stepPhysics initialParams (resetSimulation initialParams)
  = stepPhysics mirroredParams (resetSimulation initialParams).
Proof.
  assert (H : vscale (charge initialParams / mass initialParams)
                     (bField initialParams)
              = vscale (charge mirroredParams / mass mirroredParams)
                       (bField mirroredParams)).
  { unfold vscale, initialParams, mirroredParams.
    cbn [charge mass bField x y z]. apply vec_eq; lra. }
  exact (proj1 (motion_depends_on_ratio initialParams mirroredParams H
                  (resetSimulation initialParams))).
Defined.
